(** * Quiz application: generation-response handling, voice dialogue and
      quiz taking

    A shallow embedding of the logic in [src/components/QuizGenerator.tsx]
    and [src/components/QuizTaking.tsx], with the properties stated about
    it.  JavaScript strings are modelled as lists of [ascii] code units
    (code units below 256), React state as records that event handlers
    transform, pending [setTimeout] callbacks as a FIFO queue carried in the
    state, and IEEE-754 doubles through the standard library's [SpecFloat]. *)

From Stdlib Require Import ZArith Ascii String Floats.SpecFloat.
From stdpp Require Import base decidable option list gmap strings pretty.

Set Warnings "-register-all,-clear-no-such-hyp".

Local Open Scope Z_scope.

(* ===================================================================== *)
(** ** JavaScript string primitives *)
(* ===================================================================== *)

Module JS.

(** A JavaScript string, as its sequence of code units. *)
Abbreviation jsstring := (list ascii).

Definition chars (s : string) : jsstring := list_ascii_of_string s.

Definition code (c : ascii) : N := N_of_ascii c.

(** White space and line terminators stripped by [String.prototype.trim]
    (those with a code unit below 256). *)
Definition isWhiteSpace (c : ascii) : bool :=
  let n := code c in
  ((9 <=? n)%N && (n <=? 13)%N) || (n =? 32)%N || (n =? 160)%N.

Fixpoint dropWhile {A} (p : A → bool) (l : list A) : list A :=
  match l with
  | [] => []
  | x :: l' => if p x then dropWhile p l' else l
  end.

Definition trimStart (s : jsstring) : jsstring := dropWhile isWhiteSpace s.
Definition trimEnd (s : jsstring) : jsstring :=
  reverse (dropWhile isWhiteSpace (reverse s)).
Definition trim (s : jsstring) : jsstring := trimEnd (trimStart s).

(** [String.prototype.toLowerCase] on one code unit: the ASCII capitals
    and the Latin-1 capitals (all of 0xC0..0xDE but the multiplication
    sign 0xD7) move up by 0x20. *)
Definition lowerChar (c : ascii) : ascii :=
  let n := code c in
  if ((65 <=? n)%N && (n <=? 90)%N)
     || ((192 <=? n)%N && (n <=? 222)%N && negb (n =? 215)%N)
  then ascii_of_N (n + 32) else c.

Definition toLowerCase (s : jsstring) : jsstring := map lowerChar s.

Definition ascii_eqb (a b : ascii) : bool := Ascii.eqb a b.

(** [isPrefixOf p s]: [s] starts with [p]. *)
Fixpoint isPrefixOf (p s : jsstring) : bool :=
  match p, s with
  | [], _ => true
  | _ :: _, [] => false
  | a :: p', b :: s' => ascii_eqb a b && isPrefixOf p' s'
  end.

(** [String.prototype.includes]: the search string occurs at some
    position. *)
Fixpoint includes (s pat : jsstring) : bool :=
  isPrefixOf pat s ||
  match s with
  | [] => false
  | _ :: s' => includes s' pat
  end.

(** *** The regular expressions the component uses

    Both patterns, [/\[[\s\S]*\]/] and [/\d+/], are sequences of
    character classes, each taken once or under a greedy star.  The
    matcher is the backtracking one of the language: a star first takes
    as many code units as it can and gives them back one at a time until
    the rest of the pattern matches. *)
Inductive piece :=
| Once (cls : ascii → bool)
| Star (cls : ascii → bool).

Definition regex := list piece.

(** Match [re] at the start of [s]; the result is the matched prefix. *)
Fixpoint matchHere (re : regex) : jsstring → option jsstring :=
  match re with
  | [] => fun _ => Some []
  | Once cls :: re' => fun s =>
      match s with
      | c :: s' => if cls c then (c ::.) <$> matchHere re' s' else None
      | [] => None
      end
  | Star cls :: re' =>
      fix star (s : jsstring) : option jsstring :=
        match s with
        | c :: s' =>
            if cls c then
              match star s' with
              | Some m => Some (c :: m)
              | None => matchHere re' s
              end
            else matchHere re' s
        | [] => matchHere re' []
        end
  end.

(** [String.prototype.match] with a non-global pattern: the match at the
    leftmost position where the pattern matches, as (index, match[0]),
    or [None] for [null]. *)
Fixpoint matchFrom (re : regex) (i : nat) (s : jsstring)
  : option (nat * jsstring) :=
  match matchHere re s with
  | Some m => Some (i, m)
  | None =>
      match s with
      | [] => None
      | _ :: s' => matchFrom re (S i) s'
      end
  end.

Definition match_ (s : jsstring) (re : regex) : option (nat * jsstring) :=
  matchFrom re 0 s.

Definition lit (c : ascii) : ascii → bool := ascii_eqb c.
Definition anyChar : ascii → bool := fun _ => true.      (* [\s\S] *)
Definition digit (c : ascii) : bool :=                    (* \d *)
  (48 <=? code c)%N && (code c <=? 57)%N.

End JS.

(* ===================================================================== *)
(** ** JavaScript values as [JSON.parse] produces them *)
(* ===================================================================== *)

Module Json.
Import JS.

(** Numbers are kept as integers: the component only asks a number for its
    [typeof] and its truthiness, and compares it with an option index. *)
Inductive value :=
| Undefined
| Null
| Bool (b : bool)
| Num (n : Z)
| Str (s : jsstring)
| Arr (items : list value)
| Obj (fields : list (jsstring * value)).

Inductive jstype := TUndefined | TObject | TBoolean | TNumber | TString.

Definition typeof (v : value) : jstype :=
  match v with
  | Undefined => TUndefined
  | Null | Arr _ | Obj _ => TObject
  | Bool _ => TBoolean
  | Num _ => TNumber
  | Str _ => TString
  end.

Definition is_number (v : value) : bool :=
  match typeof v with TNumber => true | _ => false end.

(** ToBoolean. *)
Definition truthy (v : value) : bool :=
  match v with
  | Undefined | Null => false
  | Bool b => b
  | Num n => negb (n =? 0)
  | Str s => match s with [] => false | _ => true end
  | Arr _ | Obj _ => true
  end.

Definition isArray (v : value) : bool :=
  match v with Arr _ => true | _ => false end.

Definition nullish (v : value) : bool :=
  match v with Undefined | Null => true | _ => false end.

Definition str_eqb (a b : jsstring) : bool := bool_decide (a = b).

Fixpoint lookupField (k : jsstring) (fields : list (jsstring * value)) : value :=
  match fields with
  | [] => Undefined
  | (k', v) :: rest => if str_eqb k k' then v else lookupField k rest
  end.

(** Thrown values: an [Error] (or a subclass) with its message, or something
    that is not an [Error]. *)
Inductive errname := EError | ETypeError | ESyntaxError.
Inductive exn :=
| Err (name : errname) (message : jsstring)
| NonError.

Definition result (A : Type) : Type := exn + A.

(** [v.k] for the keys the component reads ([candidates], [content],
    [parts], [text], [question], [options], [correctAnswerIndex], [hint]):
    none is a member of a prototype, so only objects can have them; reading
    a property of [null] or [undefined] throws. *)
Definition getProp (v : value) (k : string) : result value :=
  match v with
  | Undefined | Null =>
      inl (Err ETypeError (chars "Cannot read properties of null or undefined"))
  | Obj fields => inr (lookupField (chars k) fields)
  | _ => inr Undefined
  end.

(** [v?.k]. *)
Definition getPropOpt (v : value) (k : string) : value :=
  match v with
  | Obj fields => lookupField (chars k) fields
  | _ => Undefined
  end.

(** [v?.[0]]: the first element of an array, the first code unit of a
    string, the field ["0"] of an object. *)
Definition getZeroOpt (v : value) : value :=
  match v with
  | Arr (x :: _) => x
  | Str (c :: _) => Str [c]
  | Obj fields => lookupField (chars "0") fields
  | _ => Undefined
  end.

End Json.

(* ===================================================================== *)
(** ** [utils/fileProcessor]: text extraction *)
(* ===================================================================== *)

Module FileProcessor.
Import JS Json.

Record File := { type : jsstring; name : jsstring }.

(** What the parsing libraries and the browser's file reader give for a
    file: the text items of each PDF page ([''] for an item that is not a
    text item), the raw text of a DOCX, the content of a text file; each
    may fail. *)
Record Readers := {
  pdfItems : File → result (list (list jsstring));
  docxRawText : File → result jsstring;
  readAsText : File → result jsstring;
}.

Definition endsWith (s suffix : jsstring) : bool :=
  isPrefixOf (reverse suffix) (reverse s).

Fixpoint join (sep : jsstring) (parts : list jsstring) : jsstring :=
  match parts with
  | [] => []
  | [p] => p
  | p :: rest => p ++ sep ++ join sep rest
  end.

Definition nonEmpty (s : jsstring) : bool :=
  match s with [] => false | _ => true end.

Definition newline : ascii := ascii_of_N 10.

Definition extractTextFromPDF (r : Readers) (f : File) : result jsstring :=
  match pdfItems r f with
  | inl _ =>
      inl (Err EError
        (chars "Failed to process PDF file. Try another PDF or convert to DOCX/TXT."))
  | inr pages =>
      let pageTexts :=
        omap (fun items =>
                let pageText := join (chars " ") (filter (fun s => nonEmpty s = true) items) in
                if nonEmpty (trim pageText) then Some (trim pageText) else None)
             pages in
      let combined := join [newline; newline] pageTexts in
      inr (if nonEmpty combined then combined
           else chars "No readable text found in PDF.")
  end.

Definition extractTextFromDOCX (r : Readers) (f : File) : result jsstring :=
  match docxRawText r f with
  | inl _ =>
      inl (Err EError (chars "Failed to process DOCX file. Please check the file format."))
  | inr v => inr (trim v)
  end.

Definition extractTextFromTXT (r : Readers) (f : File) : result jsstring :=
  match readAsText r f with
  | inl _ => inl (Err EError (chars "Failed to read text file"))
  | inr text => inr (trim text)
  end.

(** Every failure inside, the unsupported type included, is caught and
    replaced by one generic error. *)
Definition extractTextFromFile (r : Readers) (f : File) : result jsstring :=
  let fileType := type f in
  let fileName := toLowerCase (name f) in
  let attempt : result jsstring :=
    if str_eqb fileType (chars "application/pdf") || endsWith fileName (chars ".pdf")
    then extractTextFromPDF r f
    else if str_eqb fileType
              (chars "application/vnd.openxmlformats-officedocument.wordprocessingml.document")
            || endsWith fileName (chars ".docx")
    then extractTextFromDOCX r f
    else if str_eqb fileType (chars "text/plain") || endsWith fileName (chars ".txt")
    then extractTextFromTXT r f
    else inl (Err EError (chars "Unsupported file type: " ++ fileType)) in
  match attempt with
  | inr text => inr text
  | inl _ =>
      inl (Err EError
        (chars "Failed to extract text from file. Please check the file format and try again."))
  end.

End FileProcessor.

(* ===================================================================== *)
(** ** [components/QuizGenerator]: the generation request *)
(* ===================================================================== *)

Module QuizGenerator.
Import JS Json FileProcessor.

Inductive InputType := file | web | voice.

Record QuizSettingsData := {
  questionCount : Z;
  difficulty : jsstring;
  questionType : jsstring;
}.

Record VoiceResponses := {
  topic : jsstring;
  vQuestionCount : jsstring;
  vDifficulty : jsstring;
}.

Record Toast := {
  title : jsstring;
  description : jsstring;
  destructive : bool;
}.

(** What [generateQuiz] reads from the component. *)
Record Inputs := {
  GEMINI_API_KEY : option jsstring;
  inputType : InputType;
  selectedFile : option File;
  webLink : jsstring;
  webDescription : jsstring;
  voiceText : jsstring;
  settings : QuizSettingsData;
  isVoiceInputComplete : bool;
  voiceResponses : VoiceResponses;
}.

(** The body of the POST: the fixed prompt template around the settings,
    the content description and the content. *)
Record Request := {
  reqSettings : QuizSettingsData;
  reqDescription : jsstring;
  reqSource : jsstring;
}.

Record Response := {
  ok : bool;
  status : Z;
  statusText : jsstring;
  json : result value;         (* what [response.json()] settles to *)
}.

(** The world outside the component. *)
Record World := {
  readers : Readers;
  fetch : Request → result Response;
  JSON_parse : jsstring → result value;
}.

(** What [generateQuiz] writes: the [isGenerating] flag and its calls. *)
Record Effects := {
  isGenerating : bool;
  toasts : list Toast;
  fetches : list Request;
  generated : list (list value);     (* arguments of [onQuizGenerated] *)
  consoleErrors : list exn;
}.

(** State and exceptions. *)
Definition M (A : Type) : Type := Effects → result A * Effects.

Definition lift {A} (r : result A) : M A := fun st => (r, st).

#[local] Instance M_ret : MRet M := fun A a st => (inr a, st).
#[local] Instance M_bind : MBind M := fun A B k m st =>
  match m st with
  | (inr a, st') => k a st'
  | (inl e, st') => (inl e, st')
  end.

Definition setIsGenerating (b : bool) : M unit := fun st =>
  (inr tt, {| isGenerating := b; toasts := toasts st; fetches := fetches st;
              generated := generated st; consoleErrors := consoleErrors st |}).
Definition toast (t : Toast) : M unit := fun st =>
  (inr tt, {| isGenerating := isGenerating st; toasts := toasts st ++ [t];
              fetches := fetches st; generated := generated st;
              consoleErrors := consoleErrors st |}).
Definition doFetch (w : World) (r : Request) : M Response := fun st =>
  (fetch w r, {| isGenerating := isGenerating st; toasts := toasts st;
                 fetches := fetches st ++ [r]; generated := generated st;
                 consoleErrors := consoleErrors st |}).
Definition onQuizGenerated (qs : list value) : M unit := fun st =>
  (inr tt, {| isGenerating := isGenerating st; toasts := toasts st;
              fetches := fetches st; generated := generated st ++ [qs];
              consoleErrors := consoleErrors st |}).
Definition consoleError (e : exn) : M unit := fun st =>
  (inr tt, {| isGenerating := isGenerating st; toasts := toasts st;
              fetches := fetches st; generated := generated st;
              consoleErrors := consoleErrors st ++ [e] |}).

(** [try { body } catch (e) { handler e } finally { fin }]. *)
Definition tryCatchFinally (body : M unit) (handler : exn → M unit)
    (fin : M unit) : M unit :=
  fun st =>
    let after :=
      match body st with
      | (inr tt, st') => (inr tt, st')
      | (inl e, st') => handler e st'
      end in
    match fin (snd after) with
    | (inr tt, st'') => (fst after, st'')
    | (inl e, st'') => (inl e, st'')
    end.

Definition info (t d : string) : Toast :=
  {| title := chars t; description := chars d; destructive := false |}.

Definition error (msg : string) : exn := Err EError (chars msg).

(** [/\[[\s\S]*\]/] *)
Definition arrayPattern : regex := [Once (lit "["); Star anyChar; Once (lit "]")].

(** [generatedText.match(/\[[\s\S]*\]/)], then [jsonMatch[0]]. *)
Definition jsonMatch (generatedText : jsstring) : option jsstring :=
  snd <$> match_ generatedText arrayPattern.

(** The callback of [questions.every]: the operands of [&&] in order; the
    first property read throws on [null]. *)
Definition isValidQuestion (q : value) : result bool :=
  match getProp q "question" with
  | inl e => inl e
  | inr question =>
      if negb (truthy question) then inr false else
      let options := getPropOpt q "options" in
      match options with
      | Arr items =>
          if negb (length items =? 4)%nat then inr false else
          if negb (is_number (getPropOpt q "correctAnswerIndex")) then inr false else
          inr (truthy (getPropOpt q "hint"))
      | _ => inr false
      end
  end.

(** [Array.prototype.every]: stops at the first element that fails. *)
Fixpoint every (f : value → result bool) (l : list value) : result bool :=
  match l with
  | [] => inr true
  | q :: rest =>
      match f q with
      | inl e => inl e
      | inr false => inr false
      | inr true => every f rest
      end
  end.

(** From the parsed value to the questions handed over, or the error
    thrown. *)
Definition validateQuestions (parsed : value) : result (list value) :=
  match parsed with
  | Arr [] => inl (error "No valid questions generated")
  | Arr questions =>
      match every isValidQuestion questions with
      | inl e => inl e
      | inr false => inl (error "Generated questions have invalid format")
      | inr true => inr questions
      end
  | _ => inl (error "No valid questions generated")
  end.

(** [data.candidates?.[0]?.content?.parts?.[0]?.text] *)
Definition generatedTextOf (data : value) : result value :=
  match getProp data "candidates" with
  | inl e => inl e
  | inr candidates =>
      inr (getPropOpt (getZeroOpt (getPropOpt (getPropOpt (getZeroOpt candidates)
             "content") "parts")) "text")
  end.

(** From the generated text to the questions: shared by [generateQuiz] and
    [generateVoiceQuizFrom]. *)
Definition parseGenerated (w : World) (generatedText : value)
  : result (list value) :=
  if negb (truthy generatedText) then inl (error "No response from AI") else
  match generatedText with
  | Str text =>
      match jsonMatch text with
      | None => inl (error "Invalid response format from AI")
      | Some m =>
          match JSON_parse w m with
          | inl e => inl e
          | inr parsed => validateQuestions parsed
          end
      end
  | _ => inl (Err ETypeError (chars "generatedText.match is not a function"))
  end.

Definition isReadyToGenerate (i : Inputs) : bool :=
  match GEMINI_API_KEY i with Some k => nonEmpty k | None => false end
  && negb (questionCount (settings i) =? 0)
  && nonEmpty (difficulty (settings i))
  && nonEmpty (questionType (settings i))
  && (match inputType i with
      | file => bool_decide (is_Some (selectedFile i))
      | web => nonEmpty (trim (webLink i))
      | voice => isVoiceInputComplete i
                 && nonEmpty (trim (topic (voiceResponses i)))
                 && nonEmpty (vQuestionCount (voiceResponses i))
                 && nonEmpty (vDifficulty (voiceResponses i))
      end).

(** The toast shown first, for each input method. *)
Definition processingToast (i : Inputs) : Toast :=
  match inputType i with
  | file => info "Processing document..." "Extracting text from your file"
  | web => info "Processing web content..." "Preparing content for quiz generation"
  | voice => info "Processing voice input..." "Converting speech to text"
  end.

(** [contentSource] and [contentDescription] for each input method. *)
Definition contentOf (w : World) (i : Inputs) : result (jsstring * jsstring) :=
  match inputType i with
  | file =>
      match selectedFile i with
      | None => inl (Err ETypeError (chars "Cannot read properties of null"))
      | Some f =>
          match extractTextFromFile (readers w) f with
          | inl e => inl e
          | inr extractedText =>
              if negb (nonEmpty (trim extractedText))
              then inl (error "No text could be extracted from the file")
              else inr (extractedText, chars "Document: " ++ name f)
          end
      end
  | web =>
      inr (if nonEmpty (trim (webDescription i))
           then chars "Website: " ++ webLink i ++ [newline; newline]
                  ++ chars "Description: " ++ webDescription i
           else chars "Website: " ++ webLink i,
           chars "Web Content: " ++ webLink i)
  | voice => inr (trim (voiceText i), chars "Voice Input")
  end.

Definition requestFor (i : Inputs) (content : jsstring * jsstring) : Request :=
  {| reqSettings := settings i;
     reqDescription := snd content;
     reqSource := fst content |}.

(** From the response to the questions, or the error thrown. *)
Definition questionsOf (w : World) (response : Response) : result (list value) :=
  if negb (ok response)
  then inl (Err EError (chars "API Error: " ++ chars (pretty (status response))
                          ++ chars " " ++ statusText response))
  else
    match json response with
    | inl e => inl e
    | inr data =>
        match generatedTextOf data with
        | inl e => inl e
        | inr generatedText => parseGenerated w generatedText
        end
    end.

Definition generationFailed (e : exn) : Toast :=
  {| title := chars "Generation failed";
     description := match e with
                    | Err _ message => message
                    | NonError => chars "Unknown error occurred"
                    end;
     destructive := true |}.

Definition generateQuiz (w : World) (i : Inputs) : M unit :=
  if negb (isReadyToGenerate i) then mret tt else
  setIsGenerating true;;
  tryCatchFinally
    (toast (processingToast i);;
     content ← lift (contentOf w i);
     toast (info "Generating quiz..." "AI is creating your questions");;
     response ← doFetch w (requestFor i content);
     questions ← lift (questionsOf w response);
     toast {| title := chars "Quiz generated successfully!";
              description := chars (pretty (length questions))
                               ++ chars " questions ready to start";
              destructive := false |};;
     onQuizGenerated questions)
    (fun e => consoleError e;; toast (generationFailed e))
    (setIsGenerating false).

(** What one generation comes to, apart from its toasts: the questions
    handed over or the error thrown inside the [try]. *)
Definition outcome (w : World) (i : Inputs) : result (list value) :=
  match contentOf w i with
  | inl e => inl e
  | inr content =>
      match fetch w (requestFor i content) with
      | inl e => inl e
      | inr response => questionsOf w response
      end
  end.

Definition initial : Effects :=
  {| isGenerating := false; toasts := []; fetches := []; generated := [];
     consoleErrors := [] |}.

(** *** The voice conversation *)

Inductive Step := StepTopic | StepQuestions | StepDifficulty.

(** A pending [setTimeout(() => startListening(), 500)]; the later steps
    start listening only if no quiz is being generated by then. *)
Record Scheduled := { delay : Z; unlessGenerating : bool }.

(** The refs and state variables the conversation uses, and what it has
    said and scheduled. *)
Record Voice := {
  isProcessingRef : bool;
  isGeneratingQuizRef : bool;
  conversationStepRef : Step;
  conversationStep : Step;
  voiceResponsesRef : VoiceResponses;
  voiceResponsesState : VoiceResponses;
  showVoiceModal : bool;
  voiceInputComplete : bool;
  recognitionRef : option bool;      (* the handle, and whether it listens *)
  silenceTimeoutRef : bool;          (* a silence timer is pending *)
  spoken : list jsstring;
  scheduled : list Scheduled;
  voiceToasts : list Toast;
}.

Definition setProcessing (b : bool) (v : Voice) : Voice :=
  {| isProcessingRef := b; isGeneratingQuizRef := isGeneratingQuizRef v;
     conversationStepRef := conversationStepRef v;
     conversationStep := conversationStep v;
     voiceResponsesRef := voiceResponsesRef v;
     voiceResponsesState := voiceResponsesState v;
     showVoiceModal := showVoiceModal v;
     voiceInputComplete := voiceInputComplete v;
     recognitionRef := recognitionRef v;
     silenceTimeoutRef := silenceTimeoutRef v;
     spoken := spoken v; scheduled := scheduled v;
     voiceToasts := voiceToasts v |}.

(** [recognitionRef.current.stop()] when there is a handle, then the
    pending silence timer is cleared. *)
Definition stopAndClear (v : Voice) : Voice :=
  {| isProcessingRef := isProcessingRef v;
     isGeneratingQuizRef := isGeneratingQuizRef v;
     conversationStepRef := conversationStepRef v;
     conversationStep := conversationStep v;
     voiceResponsesRef := voiceResponsesRef v;
     voiceResponsesState := voiceResponsesState v;
     showVoiceModal := showVoiceModal v;
     voiceInputComplete := voiceInputComplete v;
     recognitionRef := (fun _ => false) <$> recognitionRef v;
     silenceTimeoutRef := false;
     spoken := spoken v; scheduled := scheduled v;
     voiceToasts := voiceToasts v |}.

(** [updateVoiceResponses(partial)]: the merged record goes to the state
    and to its ref. *)
Definition updateVoiceResponses (merge : VoiceResponses → VoiceResponses)
    (v : Voice) : Voice :=
  let next := merge (voiceResponsesState v) in
  {| isProcessingRef := isProcessingRef v;
     isGeneratingQuizRef := isGeneratingQuizRef v;
     conversationStepRef := conversationStepRef v;
     conversationStep := conversationStep v;
     voiceResponsesRef := next;
     voiceResponsesState := next;
     showVoiceModal := showVoiceModal v;
     voiceInputComplete := voiceInputComplete v;
     recognitionRef := recognitionRef v;
     silenceTimeoutRef := silenceTimeoutRef v;
     spoken := spoken v; scheduled := scheduled v;
     voiceToasts := voiceToasts v |}.

Definition withTopic (t : jsstring) (r : VoiceResponses) : VoiceResponses :=
  {| topic := t; vQuestionCount := vQuestionCount r; vDifficulty := vDifficulty r |}.
Definition withQuestionCount (n : jsstring) (r : VoiceResponses) : VoiceResponses :=
  {| topic := topic r; vQuestionCount := n; vDifficulty := vDifficulty r |}.
Definition withDifficulty (d : jsstring) (r : VoiceResponses) : VoiceResponses :=
  {| topic := topic r; vQuestionCount := vQuestionCount r; vDifficulty := d |}.

Definition updateConversationStep (step : Step) (v : Voice) : Voice :=
  {| isProcessingRef := isProcessingRef v;
     isGeneratingQuizRef := isGeneratingQuizRef v;
     conversationStepRef := step;
     conversationStep := step;
     voiceResponsesRef := voiceResponsesRef v;
     voiceResponsesState := voiceResponsesState v;
     showVoiceModal := showVoiceModal v;
     voiceInputComplete := voiceInputComplete v;
     recognitionRef := recognitionRef v;
     silenceTimeoutRef := silenceTimeoutRef v;
     spoken := spoken v; scheduled := scheduled v;
     voiceToasts := voiceToasts v |}.

Definition promptText (step : Step) : jsstring :=
  match step with
  | StepTopic => chars "What topic would you like to explore?"
  | StepQuestions => chars "How many questions do you want?"
  | StepDifficulty =>
      chars "What difficulty level? You can say easy, medium, or hard."
  end.

(** [await promptForStep(step)]; the promise of [speak] always resolves. *)
Definition promptForStep (step : Step) (v : Voice) : Voice :=
  {| isProcessingRef := isProcessingRef v;
     isGeneratingQuizRef := isGeneratingQuizRef v;
     conversationStepRef := conversationStepRef v;
     conversationStep := conversationStep v;
     voiceResponsesRef := voiceResponsesRef v;
     voiceResponsesState := voiceResponsesState v;
     showVoiceModal := showVoiceModal v;
     voiceInputComplete := voiceInputComplete v;
     recognitionRef := recognitionRef v;
     silenceTimeoutRef := silenceTimeoutRef v;
     spoken := spoken v ++ [promptText step]; scheduled := scheduled v;
     voiceToasts := voiceToasts v |}.

Definition scheduleListening (guarded : bool) (v : Voice) : Voice :=
  {| isProcessingRef := isProcessingRef v;
     isGeneratingQuizRef := isGeneratingQuizRef v;
     conversationStepRef := conversationStepRef v;
     conversationStep := conversationStep v;
     voiceResponsesRef := voiceResponsesRef v;
     voiceResponsesState := voiceResponsesState v;
     showVoiceModal := showVoiceModal v;
     voiceInputComplete := voiceInputComplete v;
     recognitionRef := recognitionRef v;
     silenceTimeoutRef := silenceTimeoutRef v;
     spoken := spoken v;
     scheduled := scheduled v ++ [{| delay := 500; unlessGenerating := guarded |}];
     voiceToasts := voiceToasts v |}.

(** [setShowVoiceModal(false); setIsVoiceInputComplete(true); toast(...)] *)
Definition completeVoiceInput (v : Voice) : Voice :=
  {| isProcessingRef := isProcessingRef v;
     isGeneratingQuizRef := isGeneratingQuizRef v;
     conversationStepRef := conversationStepRef v;
     conversationStep := conversationStep v;
     voiceResponsesRef := voiceResponsesRef v;
     voiceResponsesState := voiceResponsesState v;
     showVoiceModal := false;
     voiceInputComplete := true;
     recognitionRef := recognitionRef v;
     silenceTimeoutRef := silenceTimeoutRef v;
     spoken := spoken v; scheduled := scheduled v;
     voiceToasts := voiceToasts v
       ++ [info "Voice input complete" "Click 'Generate Quiz' to create your quiz."] |}.

(** [/\d+/] *)
Definition digitsPattern : regex := [Once digit; Star digit].

(** The [difficulty] case: the spoken words mapped to a level. *)
Definition difficultyOf (lowerTranscript : jsstring) : jsstring :=
  if includes lowerTranscript (chars "easy")
     || includes lowerTranscript (chars "simple")
  then chars "easy"
  else if includes lowerTranscript (chars "hard")
          || includes lowerTranscript (chars "difficult")
          || includes lowerTranscript (chars "advanced")
  then chars "hard"
  else chars "medium".

Definition processVoiceResponse (transcript : jsstring) (v : Voice) : Voice :=
  if isProcessingRef v then v else
  let v := setProcessing true v in
  let lowerTranscript := trim (toLowerCase transcript) in
  let step := conversationStepRef v in
  let v := stopAndClear v in
  match step with
  | StepTopic =>
      if (Z.of_nat (length (trim transcript)) <? 3)
      then scheduleListening false (setProcessing false v)
      else
        let v := updateVoiceResponses (withTopic (trim transcript)) v in
        let v := updateConversationStep StepQuestions v in
        let v := setProcessing false v in
        let v := promptForStep StepQuestions v in
        scheduleListening true v
  | StepQuestions =>
      let questionCount :=
        match match_ lowerTranscript digitsPattern with
        | Some (_, m) => m
        | None => chars "10"
        end in
      let v := updateVoiceResponses (withQuestionCount questionCount) v in
      let v := updateConversationStep StepDifficulty v in
      let v := setProcessing false v in
      let v := promptForStep StepDifficulty v in
      scheduleListening true v
  | StepDifficulty =>
      let difficulty := difficultyOf lowerTranscript in
      let v := updateVoiceResponses (withDifficulty difficulty) v in
      let v := setProcessing false v in
      completeVoiceInput v
  end.

(** The state [startVoiceConversation] leaves before it first listens:
    flags reset, no handle, the modal open at the topic step with empty
    responses. *)
Definition conversationStart : Voice :=
  {| isProcessingRef := false; isGeneratingQuizRef := false;
     conversationStepRef := StepTopic; conversationStep := StepTopic;
     voiceResponsesRef := {| topic := []; vQuestionCount := []; vDifficulty := [] |};
     voiceResponsesState := {| topic := []; vQuestionCount := []; vDifficulty := [] |};
     showVoiceModal := true; voiceInputComplete := false;
     recognitionRef := None; silenceTimeoutRef := false;
     spoken := [promptText StepTopic];
     scheduled := [{| delay := 300; unlessGenerating := false |}];
     voiceToasts := [] |}.

End QuizGenerator.

(* ===================================================================== *)
(** ** JavaScript numbers where their rounding matters *)
(* ===================================================================== *)

Module Number.

(** IEEE-754 binary64. *)
Definition prec : Z := 53.
Definition emax : Z := 1024.

Definition number := spec_float.

(** The Number for an integer (exact below 2^53). *)
Definition ofZ (z : Z) : number :=
  match z with
  | Z0 => S754_zero false
  | Zpos p => binary_normalize prec emax (Zpos p) 0 false
  | Zneg p => binary_normalize prec emax (Zneg p) 0 false
  end.

Definition div (x y : number) : number := SFdiv prec emax x y.
Definition mul (x y : number) : number := SFmul prec emax x y.

(** [Math.round]: the nearest integer, a tie going towards +infinity; a
    result of zero keeps the sign of the argument; NaN, the infinities and
    the integers are returned as they are. *)
Definition round (x : number) : number :=
  match x with
  | S754_finite s m e =>
      if 0 <=? e then x else
      let num := if s then Zneg m else Zpos m in
      let r := (2 * num + 2 ^ (- e)) / 2 ^ (1 - e) in
      if r =? 0 then S754_zero s else ofZ r
  | _ => x
  end.

(** The same Number, representation for representation. *)
Definition same (x y : number) : bool :=
  match x, y with
  | S754_zero s, S754_zero s' => Bool.eqb s s'
  | S754_infinity s, S754_infinity s' => Bool.eqb s s'
  | S754_nan, S754_nan => true
  | S754_finite s m e, S754_finite s' m' e' =>
      Bool.eqb s s' && (m =? m')%positive && (e =? e')
  | _, _ => false
  end.

End Number.

(* ===================================================================== *)
(** ** [components/QuizTaking] *)
(* ===================================================================== *)

Module QuizTaking.
Import JS.

Record Question := {
  question : jsstring;
  options : list jsstring;
  correctAnswerIndex : Z;
  hint : jsstring;
}.

Record UserAnswer := {
  questionIndex : Z;
  selectedAnswer : Z;
  isCorrect : bool;
  usedHint : bool;
}.

Record Toast := {
  title : jsstring;
  description : jsstring;
  destructive : bool;
}.

(** A callback [setTimeout] still holds: its delay in milliseconds and the
    [isLastQuestion] its closure keeps from the render that made it. *)
Record Timer := { delay : Z; capturedIsLast : bool }.

(** The state variables of the component, the pending timers (equal
    delays fire in the order they were set) and the toasts shown. *)
Record State := {
  currentQuestionIndex : Z;
  userAnswers : list UserAnswer;
  selectedOption : option Z;
  showAnswer : bool;
  credits : Z;
  isQuizComplete : bool;
  usedHints : gset Z;
  timers : list Timer;
  toasts : list Toast;
}.

Definition initial : State :=
  {| currentQuestionIndex := 0; userAnswers := []; selectedOption := None;
     showAnswer := false; credits := 10; isQuizComplete := false;
     usedHints := ∅; timers := []; toasts := [] |}.

(** The delay of the auto-advance timer, in milliseconds. *)
Definition autoAdvanceDelay : Z := 2000.

(** [a[i]]: [None] stands for [undefined]. *)
Definition at_ {A} (a : list A) (i : Z) : option A :=
  if i <? 0 then None else a !! Z.to_nat i.

Section Render.
Variable questions : list Question.
Variable st : State.

Definition currentQuestion : option Question :=
  at_ questions (currentQuestionIndex st).

Definition isLastQuestion : bool :=
  currentQuestionIndex st =? Z.of_nat (length questions) - 1.

Definition hasAnswered : option UserAnswer :=
  find (fun a => questionIndex a =? currentQuestionIndex st) (userAnswers st).

Definition canUseHint : bool :=
  (2 <=? credits st) && negb (bool_decide (currentQuestionIndex st ∈ usedHints st)).

End Render.

Definition handleOptionSelect (optionIndex : Z) (st : State) : State :=
  if showAnswer st then st else
  {| currentQuestionIndex := currentQuestionIndex st;
     userAnswers := userAnswers st;
     selectedOption := Some optionIndex;
     showAnswer := showAnswer st; credits := credits st;
     isQuizComplete := isQuizComplete st; usedHints := usedHints st;
     timers := timers st; toasts := toasts st |}.

Definition complete (st : State) : State :=
  {| currentQuestionIndex := currentQuestionIndex st;
     userAnswers := userAnswers st;
     selectedOption := selectedOption st;
     showAnswer := showAnswer st; credits := credits st;
     isQuizComplete := true; usedHints := usedHints st;
     timers := timers st; toasts := toasts st |}.

(** [setCurrentQuestionIndex(prev => prev + d); setSelectedOption(null);
    setShowAnswer(false)] *)
Definition moveBy (d : Z) (st : State) : State :=
  {| currentQuestionIndex := currentQuestionIndex st + d;
     userAnswers := userAnswers st;
     selectedOption := None;
     showAnswer := false; credits := credits st;
     isQuizComplete := isQuizComplete st; usedHints := usedHints st;
     timers := timers st; toasts := toasts st |}.

(** The body shared by the timer callback and the already-answered branch,
    with the [isLastQuestion] the closure holds. *)
Definition advance (isLast : bool) (st : State) : State :=
  if isLast then complete st else moveBy 1 st.

Definition feedback (q : Question) (correct : bool) : Toast :=
  {| title := if correct then chars "Correct!" else chars "Incorrect!";
     description :=
       if correct then chars "Well done! Moving to next question."
       else chars "The correct answer was: "
              ++ default (chars "undefined") (at_ (options q) (correctAnswerIndex q));
     destructive := negb correct |}.

(** The answer [handleNextQuestion] builds for the selected option. *)
Definition newAnswer (q : Question) (st : State) (selected : Z) : UserAnswer :=
  {| questionIndex := currentQuestionIndex st;
     selectedAnswer := selected;
     isCorrect := selected =? correctAnswerIndex q;
     usedHint := bool_decide (currentQuestionIndex st ∈ usedHints st) |}.

(** [None]: the handler throws, reading a field of an undefined
    [currentQuestion]. *)
Definition handleNextQuestion (questions : list Question) (st : State)
  : option State :=
  match selectedOption st, hasAnswered st with
  | None, None => Some st
  | Some selected, None =>
      q ← currentQuestion questions st;
      let a := newAnswer q st selected in
      Some {| currentQuestionIndex := currentQuestionIndex st;
              userAnswers := userAnswers st ++ [a];
              selectedOption := selectedOption st;
              showAnswer := true; credits := credits st;
              isQuizComplete := isQuizComplete st; usedHints := usedHints st;
              timers := timers st
                ++ [{| delay := autoAdvanceDelay;
                       capturedIsLast := isLastQuestion questions st |}];
              toasts := toasts st ++ [feedback q (isCorrect a)] |}
  | _, Some _ => Some (advance (isLastQuestion questions st) st)
  end.

Definition handlePreviousQuestion (st : State) : State :=
  if 0 <? currentQuestionIndex st then moveBy (-1) st else st.

Definition handleUseHint (questions : list Question) (st : State)
  : option State :=
  if negb (canUseHint st) then Some st else
  q ← currentQuestion questions st;
  Some {| currentQuestionIndex := currentQuestionIndex st;
          userAnswers := userAnswers st;
          selectedOption := selectedOption st;
          showAnswer := showAnswer st; credits := credits st - 2;
          isQuizComplete := isQuizComplete st;
          usedHints := usedHints st ∪ {[currentQuestionIndex st]};
          timers := timers st;
          toasts := toasts st          (* the title without its emoji *)
            ++ [{| title := chars "Hint"; description := hint q;
                   destructive := false |}] |}.

Record Score := {
  correctAnswers : Z;
  totalQuestions : Z;
  percentage : Number.number;
}.

(** [Math.round((correctAnswers / totalQuestions) * 100)] *)
Definition percentageOf (correctAnswers totalQuestions : Z) : Number.number :=
  Number.round
    (Number.mul (Number.div (Number.ofZ correctAnswers)
                            (Number.ofZ totalQuestions))
                (Number.ofZ 100)).

Definition calculateScore (questions : list Question) (st : State) : Score :=
  let totalQuestions := Z.of_nat (length questions) in
  let correctAnswers :=
    Z.of_nat (length (filter (fun a => isCorrect a = true) (userAnswers st))) in
  {| correctAnswers := correctAnswers;
     totalQuestions := totalQuestions;
     percentage := percentageOf correctAnswers totalQuestions |}.

(** *** What can happen to the component *)

Inductive Event :=
| ClickOption (optionIndex : Z)
| ClickNext
| ClickPrevious
| ClickHint
| TimerFires.

(** The question screen is on display: the quiz is not complete and there
    is a current question to render. *)
Definition questionShown (questions : list Question) (st : State) : bool :=
  negb (isQuizComplete st) && bool_decide (is_Some (currentQuestion questions st)).

Definition removeTimer (st : State) : State :=
  {| currentQuestionIndex := currentQuestionIndex st;
     userAnswers := userAnswers st;
     selectedOption := selectedOption st;
     showAnswer := showAnswer st; credits := credits st;
     isQuizComplete := isQuizComplete st; usedHints := usedHints st;
     timers := tail (timers st); toasts := toasts st |}.

(** One event: a click on a button that is on display and not disabled
    runs its handler; the oldest pending timer runs its callback.  [None]
    when the event cannot happen in this state. *)
Definition step (questions : list Question) (st : State) (ev : Event)
  : option State :=
  match ev with
  | TimerFires =>
      match timers st with
      | [] => None
      | timer :: _ => Some (advance (capturedIsLast timer) (removeTimer st))
      end
  | ClickOption i =>
      q ← currentQuestion questions st;
      if questionShown questions st
         && (0 <=? i) && (i <? Z.of_nat (length (options q)))
         && negb (showAnswer st || bool_decide (is_Some (hasAnswered st)))
      then Some (handleOptionSelect i st) else None
  | ClickNext =>
      if questionShown questions st
         && negb (bool_decide (selectedOption st = None)
                  && negb (bool_decide (is_Some (hasAnswered st))))
      then handleNextQuestion questions st else None
  | ClickPrevious =>
      if questionShown questions st && negb (currentQuestionIndex st =? 0)
      then Some (handlePreviousQuestion st) else None
  | ClickHint =>
      if questionShown questions st && canUseHint st
      then handleUseHint questions st else None
  end.

Fixpoint run (questions : list Question) (st : State) (evs : list Event)
  : option State :=
  match evs with
  | [] => Some st
  | ev :: rest => st' ← step questions st ev; run questions st' rest
  end.

(** The indices on which a hint was taken along a run. *)
Fixpoint hintsTaken (questions : list Question) (st : State) (evs : list Event)
  : list Z :=
  match evs with
  | [] => []
  | ev :: rest =>
      match step questions st ev with
      | None => []
      | Some st' =>
          (match ev with
           | ClickHint => [currentQuestionIndex st]
           | _ => []
           end) ++ hintsTaken questions st' rest
      end
  end.

End QuizTaking.

(* ===================================================================== *)
(** ** The spec's reading of the extraction, for comparison *)
(* ===================================================================== *)

Module Reading.
Import JS.

(** "The first top-level bracketed array", as the spec words it: from the
    first ['['], brackets are counted until the one that closes it.
    [closeBracket depth s] reads [s] inside [depth] further open brackets
    and returns the text through the closing bracket and what follows. *)
Fixpoint closeBracket (depth : nat) (s : jsstring) : option (jsstring * jsstring) :=
  match s with
  | [] => None
  | c :: s' =>
      if lit "]" c then
        match depth with
        | O => Some ([c], s')
        | S d => prod_map (c ::.) id <$> closeBracket d s'
        end
      else if lit "[" c then prod_map (c ::.) id <$> closeBracket (S depth) s'
      else prod_map (c ::.) id <$> closeBracket depth s'
  end.

(** The first top-level array and the text after it. *)
Fixpoint firstTopLevelArray (s : jsstring) : option (jsstring * jsstring) :=
  match s with
  | [] => None
  | c :: s' =>
      if lit "[" c then prod_map (c ::.) id <$> closeBracket 0 s'
      else firstTopLevelArray s'
  end.

(** The part of [s] through its last [c]; empty when [c] does not occur. *)
Fixpoint throughLast (c : ascii) (s : jsstring) : jsstring :=
  match s with
  | [] => []
  | x :: s' =>
      match throughLast c s' with
      | [] => if lit c x then [x] else []
      | m => x :: m
      end
  end.


(** What the validator looks at: presence (truthiness) of the question and
    the hint, an options array of length four, the type of the index. *)
Definition superficial (q : Json.value) : bool :=
  Json.truthy (Json.getPropOpt q "question")
  && match Json.getPropOpt q "options" with
     | Json.Arr items => (length items =? 4)%nat
     | _ => false
     end
  && Json.is_number (Json.getPropOpt q "correctAnswerIndex")
  && Json.truthy (Json.getPropOpt q "hint").

(** Half-up rounding of the exact quotient [n / d], for [d > 0]. *)
Definition roundHalfUp (n d : Z) : Z := (2 * n + d) / (2 * d).

(** [pat] occurs in [s]. *)
Definition occurs (pat : string) (s : jsstring) : Prop :=
  ∃ pre post, s = pre ++ chars pat ++ post.

(** The order of the three steps. *)
Definition rank (s : QuizGenerator.Step) : nat :=
  match s with QuizGenerator.StepTopic => 0 | QuizGenerator.StepQuestions => 1 | QuizGenerator.StepDifficulty => 2 end.

(** Transcripts processed one after the other. *)
Definition converse (ts : list jsstring) (v : QuizGenerator.Voice)
  : QuizGenerator.Voice :=
  foldl (λ v t, QuizGenerator.processVoiceResponse t v) v ts.

End Reading.

(* ===================================================================== *)
(** ** Sample inputs *)
(* ===================================================================== *)

Module GeneratorSamples.
Import JS Json FileProcessor QuizGenerator Reading.

Definition sampleQuestion (index : Z) : value :=
  Obj [(chars "question", Str (chars "Which one?"));
       (chars "options", Arr [Str (chars "A"); Str (chars "B");
                              Str (chars "C"); Str (chars "D")]);
       (chars "correctAnswerIndex", Num index);
       (chars "hint", Str (chars "Think."))].

(** A server that answers 500 to a request made from a web link. *)
Definition failingWorld : World :=
  {| readers := {| pdfItems := λ _, inr []; docxRawText := λ _, inr [];
                   readAsText := λ _, inr [] |};
     fetch := λ _, inr {| ok := false; status := 500;
                          statusText := chars "Internal Server Error";
                          json := inr Null |};
     JSON_parse := λ _, inr Null |}.

Definition webInputs : Inputs :=
  {| GEMINI_API_KEY := Some (chars "key"); inputType := web;
     selectedFile := None; webLink := chars "https://example.org";
     webDescription := []; voiceText := [];
     settings := {| questionCount := 10; difficulty := chars "medium";
                    questionType := chars "mcq" |};
     isVoiceInputComplete := false;
     voiceResponses := {| topic := []; vQuestionCount := []; vDifficulty := [] |} |}.

Definition atDifficultyStep : Voice :=
  converse [chars "the water cycle"; chars "five 5 please"] conversationStart.

End GeneratorSamples.

Module TakingSamples.
Import JS QuizTaking.

Definition sampleQuiz : list Question :=
  [ {| question := chars "Two plus two?";
       options := [chars "3"; chars "4"; chars "5"; chars "22"];
       correctAnswerIndex := 1; hint := chars "An even number." |};
    {| question := chars "Capital of France?";
       options := [chars "Rome"; chars "Madrid"; chars "Paris"; chars "Bern"];
       correctAnswerIndex := 2; hint := chars "On the Seine." |} ].

(** A hint and a right answer on the first question, the timer, a hint on
    the second. *)
Definition sampleSession : list Event :=
  [ClickHint; ClickOption 1; ClickNext; TimerFires; ClickHint].

Definition afterSampleSession : State :=
  default initial (run sampleQuiz initial sampleSession).

(** Forty questions, each with option 1 correct, and a session that
    answers the first [right] of them correctly and the others wrongly,
    waiting for the timer each time. *)
Definition fortyQuestions : list Question :=
  replicate 40 {| question := chars "Q"; options := [chars "a"; chars "b"; chars "c"; chars "d"];
                  correctAnswerIndex := 1; hint := chars "h" |}.

Definition answerAll (right wrong : nat) : list Event :=
  concat (replicate right [ClickOption 1; ClickNext; TimerFires])
  ++ concat (replicate wrong [ClickOption 0; ClickNext; TimerFires]).

Definition afterForty : State :=
  default initial (run fortyQuestions initial (answerAll 23 17)).

End TakingSamples.

(* ===================================================================== *)
(** ** [pages/Index]: the two screens *)
(* ===================================================================== *)

Module Index.
Import Json.

Inductive AppState := generator | taking.

Record State := {
  appState : AppState;
  quizQuestions : list value;
}.

Definition initial : State := {| appState := generator; quizQuestions := [] |}.

Definition handleQuizGenerated (questions : list value) (st : State) : State :=
  {| appState := taking; quizQuestions := questions |}.

Definition handleRestart (st : State) : State :=
  {| appState := generator; quizQuestions := [] |}.

(** The page hands [handleQuizGenerated] to the generator as its
    [onQuizGenerated]: each call the generator made reaches the page. *)
Definition deliver (calls : list (list value)) (st : State) : State :=
  foldl (λ st questions, handleQuizGenerated questions st) st calls.

End Index.

(* ===================================================================== *)
(** ** More sample inputs *)
(* ===================================================================== *)

Module MoreSamples.
Import JS Json FileProcessor QuizGenerator GeneratorSamples.

Definition sampleReaders : Readers :=
  {| pdfItems := λ _, inr [[chars "Hello"; []; chars "world "]; [chars "  "]];
     docxRawText := λ _, inr (chars "  Body text  ");
     readAsText := λ _, inl NonError |}.

Definition pdfFile : File :=
  {| type := chars "application/pdf"; name := chars "notes.pdf" |}.
Definition docxFile : File :=
  {| type := []; name := chars "Essay.DOCX" |}.
Definition imageFile : File :=
  {| type := chars "image/png"; name := chars "photo.png" |}.
Definition shoutingPdf : File :=
  {| type := chars "text/plain"; name := chars "NOTES.PDF" |}.

(** The body of a successful response around a generated text. *)
Definition responseAround (text : jsstring) : Response :=
  {| ok := true; status := 200; statusText := chars "OK";
     json := inr (Obj [(chars "candidates",
              Arr [Obj [(chars "content",
                Obj [(chars "parts", Arr [Obj [(chars "text", Str text)]])])]])]) |}.

(** A world whose model answers with one well-formed question; its
    [JSON.parse] knows that one text. *)
Definition answeringWorld : World :=
  {| readers := sampleReaders;
     fetch := λ _, inr (responseAround (chars "Here you go: [...]"));
     JSON_parse := λ s, if str_eqb s (chars "[...]")
                        then inr (Arr [sampleQuestion 2])
                        else inl (Err ESyntaxError (chars "Unexpected token")) |}.

Definition fileInputs (f : File) : Inputs :=
  {| GEMINI_API_KEY := Some (chars "key"); inputType := file;
     selectedFile := Some f; webLink := []; webDescription := [];
     voiceText := [];
     settings := {| questionCount := 10; difficulty := chars "medium";
                    questionType := chars "mcq" |};
     isVoiceInputComplete := false;
     voiceResponses := {| topic := []; vQuestionCount := []; vDifficulty := [] |} |}.

(** The two toasts of a generation that goes through. *)
Definition generatingToast : Toast :=
  info "Generating quiz..." "AI is creating your questions".

Definition successToast (questions : list value) : Toast :=
  {| title := chars "Quiz generated successfully!";
     description := chars (pretty (length questions))
                      ++ chars " questions ready to start";
     destructive := false |}.

End MoreSamples.

(* ===================================================================== *)
(** ** Sessions and what holds of a quiz in progress *)
(* ===================================================================== *)

Module TakingSessions.
Import JS QuizTaking TakingSamples.

(** A quiz of one question, completed by a second click on Next while the
    timer of the first is still pending. *)
Definition oneQuestion : list Question := take 1 sampleQuiz.

Definition completedEarly : State :=
  default initial (run oneQuestion initial [ClickOption 1; ClickNext; ClickNext]).

(** A user who picks an option, clicks Next and waits for the timer. *)
Definition patientRound (choice : Z) : list Event :=
  [ClickOption choice; ClickNext; TimerFires].

Definition patientSession (choices : list Z) : list Event :=
  concat (patientRound <$> choices).

(** The answers such a session records, question by question from index
    [k]. *)
Fixpoint answersFrom (k : Z) (questions : list Question) (choices : list Z)
  : list UserAnswer :=
  match questions, choices with
  | q :: questions', c :: choices' =>
      {| questionIndex := k; selectedAnswer := c;
         isCorrect := c =? correctAnswerIndex q; usedHint := false |}
      :: answersFrom (k + 1) questions' choices'
  | _, _ => []
  end.

(** The state between two rounds of a patient session: on question [k],
    nothing selected, no timer pending. *)
Definition between (k : nat) (answers : list UserAnswer) (shown : list Toast)
  : State :=
  {| currentQuestionIndex := Z.of_nat k; userAnswers := answers;
     selectedOption := None; showAnswer := false; credits := 10;
     isQuizComplete := false; usedHints := ∅; timers := [];
     toasts := shown |}.

(** Every event of the session can happen, and after each one the index
    is that of a question of the quiz. *)
Fixpoint staysInRange (questions : list Question) (st : State)
    (evs : list Event) : Prop :=
  match evs with
  | [] => True
  | ev :: rest =>
      match step questions st ev with
      | Some st' =>
          0 ≤ currentQuestionIndex st' < Z.of_nat (length questions)
          ∧ staysInRange questions st' rest
      | None => False
      end
  end.

(** A session in which no button is clicked while an auto-advance timer
    is pending. *)
Fixpoint calm (questions : list Question) (st : State) (evs : list Event)
  : Prop :=
  match evs with
  | [] => True
  | ev :: rest =>
      (ev = TimerFires ∨ timers st = [])
      ∧ match step questions st ev with
        | Some st' => calm questions st' rest
        | None => True
        end
  end.

(** A pending timer, if any, is the only one and still holds the
    [isLastQuestion] of the question on display. *)
Definition timerInStep (questions : list Question) (st : State) : Prop :=
  timers st = []
  ∨ ∃ t, timers st = [t] ∧ capturedIsLast t = isLastQuestion questions st.

(** A recorded answer is for a question of the quiz and one of its
    options, is marked correct when that option is the right one, and
    carries the hint flag only if a hint was used on its question. *)
Definition answerInRange (questions : list Question) (st : State)
    (a : UserAnswer) : Prop :=
  ∃ q, at_ questions (questionIndex a) = Some q
       ∧ 0 ≤ selectedAnswer a < Z.of_nat (length (options q))
       ∧ isCorrect a = (selectedAnswer a =? correctAnswerIndex q)
       ∧ (usedHint a = true → questionIndex a ∈ usedHints st).

(** A selected option is an option of the question on display. *)
Definition selectionInRange (questions : list Question) (st : State) : Prop :=
  ∀ i, selectedOption st = Some i →
       ∃ q, currentQuestion questions st = Some q
            ∧ 0 ≤ i < Z.of_nat (length (options q)).

End TakingSessions.

(* ===================================================================== *)
(** ** [components/QuizGenerator]: listening for an answer *)
(* ===================================================================== *)

Module VoiceListening.
Import JS Json FileProcessor QuizGenerator.

(** One entry of [event.results], from [event.resultIndex] on. *)
Record SpeechResult := { transcript : jsstring; isFinal : bool }.

(** The conversation together with what the recognition handlers keep:
    the transcript heard so far and the listening indicator.  (The time of
    the last speech is written but never read, and is left out.) *)
Record Listening := {
  voice : Voice;
  currentTranscriptRef : jsstring;
  isListening : bool;
}.

(** [silenceTimeoutRef]: a silence timer is pending or not. *)
Definition setSilenceTimeout (pending : bool) (v : Voice) : Voice :=
  {| isProcessingRef := isProcessingRef v;
     isGeneratingQuizRef := isGeneratingQuizRef v;
     conversationStepRef := conversationStepRef v;
     conversationStep := conversationStep v;
     voiceResponsesRef := voiceResponsesRef v;
     voiceResponsesState := voiceResponsesState v;
     showVoiceModal := showVoiceModal v;
     voiceInputComplete := voiceInputComplete v;
     recognitionRef := recognitionRef v;
     silenceTimeoutRef := pending;
     spoken := spoken v; scheduled := scheduled v;
     voiceToasts := voiceToasts v |}.

(** The loop of [onresult]: final results are joined with a space after
    each, interim results as they are. *)
Definition gather (results : list SpeechResult) : jsstring * jsstring :=
  foldl (λ acc r,
           if isFinal r then (fst acc ++ transcript r ++ chars " ", snd acc)
           else (fst acc, snd acc ++ transcript r))
        ([], []) results.

(** [recognition.onresult] of [startListening]: nothing while a response
    is being processed or a quiz generated; otherwise the transcript is
    kept, the pending silence timer is cleared, and a new one (1.5 s) is
    set when there is a final result. *)
Definition onresult (results : list SpeechResult) (l : Listening) : Listening :=
  if isProcessingRef (voice l) || isGeneratingQuizRef (voice l) then l else
  let finalTranscript := fst (gather results) in
  let interimTranscript := snd (gather results) in
  let newTranscript := trim (finalTranscript ++ interimTranscript) in
  {| voice := setSilenceTimeout (nonEmpty (trim finalTranscript)) (voice l);
     currentTranscriptRef := newTranscript;
     isListening := isListening l |}.

(** What the silence timer passes to [processVoiceResponse], if
    anything. *)
Definition heard (l : Listening) : option jsstring :=
  if silenceTimeoutRef (voice l)
     && negb (isProcessingRef (voice l))
     && negb (isGeneratingQuizRef (voice l))
     && nonEmpty (trim (currentTranscriptRef l))
  then
    let transcriptToProcess := trim (currentTranscriptRef l) in
    if (2 <=? Z.of_nat (length transcriptToProcess)) then Some transcriptToProcess
    else None
  else None.

(** The silence timer runs out. *)
Definition silenceElapsed (l : Listening) : Listening :=
  match heard l with
  | Some transcriptToProcess =>
      {| voice := processVoiceResponse transcriptToProcess (voice l);
         currentTranscriptRef := currentTranscriptRef l;
         isListening := isListening l |}
  | None =>
      {| voice := setSilenceTimeout false (voice l);
         currentTranscriptRef := currentTranscriptRef l;
         isListening := isListening l |}
  end.

(** A string goes on with something that is not a digit, or ends. *)
Definition stopsDigits (post : jsstring) : Prop :=
  match post with [] => True | x :: _ => digit x = false end.

(** The inputs of the component once the conversation [v] is over, with
    the voice method chosen. *)
Definition voiceInputsOf (key : option jsstring) (s : QuizSettingsData)
    (v : Voice) : Inputs :=
  {| GEMINI_API_KEY := key; inputType := QuizGenerator.voice;
     selectedFile := None; webLink := []; webDescription := [];
     voiceText := []; settings := s;
     isVoiceInputComplete := voiceInputComplete v;
     voiceResponses := voiceResponsesState v |}.

(** Listening after [startVoiceConversation]. *)
Definition listeningStart : Listening :=
  {| voice := conversationStart; currentTranscriptRef := []; isListening := true |}.

End VoiceListening.

(* ===================================================================== *)
(** ** [components/QuizGenerator]: generating from the voice answers *)
(* ===================================================================== *)

Module VoiceGeneration.
Import JS Json FileProcessor QuizGenerator.

#[local] Existing Instance M_ret.
#[local] Existing Instance M_bind.

(** [String(v)], as a template literal and [new Error(v)] apply it to a
    value that came out of [JSON.parse]. *)
Fixpoint toString (v : value) : jsstring :=
  match v with
  | Undefined => chars "undefined"
  | Null => chars "null"
  | Bool b => if b then chars "true" else chars "false"
  | Num n => chars (pretty n)
  | Str s => s
  | Arr items =>
      join (chars ",")
        (map (λ x, match x with
                   | Undefined | Null => []
                   | _ => toString x
                   end) items)
  | Obj _ => chars "[object Object]"
  end.

(** [s.replace(c, '')] for a one-unit pattern: the first occurrence goes. *)
Fixpoint removeFirst (c : ascii) (s : jsstring) : jsstring :=
  match s with
  | [] => []
  | x :: s' => if ascii_eqb c x then s' else x :: removeFirst c s'
  end.

(** What the voice path needs from outside, beyond [World]: the text of a
    response body, [parseInt] ([None] for NaN), and the decimal text of
    [Math.ceil(parseFloat(s))]. *)
Record VoiceWorld := {
  world : World;
  responseText : Response → result jsstring;
  parseInt : jsstring → option Z;
  ceilSeconds : jsstring → jsstring;
}.

Definition notAFunction : exn :=
  Err ETypeError (chars "is not a function").

(** [details?.find(d => d['@type'] === typeName)] *)
Fixpoint findIn (typeName : jsstring) (items : list value) : result value :=
  match items with
  | [] => inr Undefined
  | d :: rest =>
      match getProp d "@type" with
      | inl e => inl e
      | inr (Str t) => if str_eqb t typeName then inr d else findIn typeName rest
      | inr _ => findIn typeName rest
      end
  end.

Definition findByType (typeName : string) (details : value) : result value :=
  match details with
  | Undefined | Null => inr Undefined
  | Arr items => findIn (chars typeName) items
  | _ => inl notAFunction
  end.

Definition rateLimitDefault : jsstring :=
  chars "API rate limit exceeded. Please try again later.".

(** The message for a 429 response, from what [response.json()] settles
    to, and the error the inner [catch] logs, if any.  An exception leaves
    the message as it was assigned so far. *)
Definition rateLimitMessage (vw : VoiceWorld) (body : result value)
  : jsstring * option exn :=
  match body with
  | inl e => (rateLimitDefault, Some e)
  | inr errorData =>
      match getProp errorData "error" with
      | inl e => (rateLimitDefault, Some e)
      | inr err =>
          if negb (truthy err) then (rateLimitDefault, None) else
          let details := getPropOpt err "details" in
          match findByType "type.googleapis.com/google.rpc.RetryInfo" details with
          | inl e => (rateLimitDefault, Some e)
          | inr retryInfo =>
              let retryDelay := getPropOpt retryInfo "retryDelay" in
              match findByType "type.googleapis.com/google.rpc.QuotaFailure" details with
              | inl e => (rateLimitDefault, Some e)
              | inr quotaInfo =>
                  let quota := getZeroOpt (getPropOpt quotaInfo "violations") in
                  if truthy quota then
                    let quotaText :=
                      chars "API quota exceeded. "
                        ++ toString (getPropOpt quota "quotaMetric")
                        ++ chars " limit: "
                        ++ toString (getPropOpt quota "quotaValue")
                        ++ chars " requests. " in
                    if truthy retryDelay then
                      match retryDelay with
                      | Str delayText =>
                          (quotaText ++ chars "Please retry in "
                             ++ ceilSeconds vw (removeFirst "s" delayText)
                             ++ chars " seconds.", None)
                      | _ => (quotaText, Some notAFunction)
                      end
                    else (quotaText ++ chars "Please try again later.", None)
                  else
                    let message := getPropOpt err "message" in
                    if truthy message then (toString message, None)
                    else (rateLimitDefault, None)
              end
          end
      end
  end.

(** The message for any other response that is not OK; reading the body
    as text may itself fail. *)
Definition notOkMessage (vw : VoiceWorld) (response : Response)
  : result jsstring :=
  match responseText vw response with
  | inl e => inl e
  | inr errorText =>
      let fallback :=
        chars "API Error: " ++ chars (pretty (status response))
          ++ chars " " ++ statusText response in
      match JSON_parse (world vw) errorText with
      | inl _ => inr fallback
      | inr errorData =>
          match getProp errorData "error" with
          | inl _ => inr fallback
          | inr err =>
              let message := getPropOpt err "message" in
              if truthy message then inr (toString message) else inr fallback
          end
      end
  end.

(** From the response to the questions or the error thrown, with what the
    inner [catch] of the 429 case logs. *)
Definition voiceQuestionsOf (vw : VoiceWorld) (response : Response)
  : result (list value) * option exn :=
  if status response =? 429 then
    (inl (Err EError (fst (rateLimitMessage vw (json response)))),
     snd (rateLimitMessage vw (json response)))
  else if negb (ok response) then
    (match notOkMessage vw response with
     | inl e => inl e
     | inr message => inl (Err EError message)
     end, None)
  else
    (match json response with
     | inl e => inl e
     | inr data =>
         match generatedTextOf data with
         | inl e => inl e
         | inr generatedText => parseGenerated (world vw) generatedText
         end
     end, None).

(** The request built by [buildVoicePrompt]: the fixed template around the
    topic, the number of questions and the difficulty. *)
Definition buildVoicePrompt (topic : jsstring) (questionCount : Z)
    (difficulty : jsstring) : Request :=
  {| reqSettings := {| questionCount := questionCount; difficulty := difficulty;
                       questionType := chars "mcq" |};
     reqDescription := chars "Topic";
     reqSource := topic |}.

(** The generator's state on the voice path. *)
Record VoiceGen := {
  effects : Effects;
  gvoice : Voice;
  lastQuizGenerationRef : Z;
  settingsNow : QuizSettingsData;
  consoleLogs : list jsstring;
}.

(** The end of a voice generation as far as the conversation goes: the
    modal is closed, the generating flag is down. *)
Definition generationOver (v : Voice) : Voice :=
  {| isProcessingRef := isProcessingRef v;
     isGeneratingQuizRef := false;
     conversationStepRef := conversationStepRef v;
     conversationStep := conversationStep v;
     voiceResponsesRef := voiceResponsesRef v;
     voiceResponsesState := voiceResponsesState v;
     showVoiceModal := false;
     voiceInputComplete := voiceInputComplete v;
     recognitionRef := recognitionRef v;
     silenceTimeoutRef := silenceTimeoutRef v;
     spoken := spoken v; scheduled := scheduled v;
     voiceToasts := voiceToasts v |}.

Definition setGeneratingQuiz (b : bool) (v : Voice) : Voice :=
  {| isProcessingRef := isProcessingRef v;
     isGeneratingQuizRef := b;
     conversationStepRef := conversationStepRef v;
     conversationStep := conversationStep v;
     voiceResponsesRef := voiceResponsesRef v;
     voiceResponsesState := voiceResponsesState v;
     showVoiceModal := showVoiceModal v;
     voiceInputComplete := voiceInputComplete v;
     recognitionRef := recognitionRef v;
     silenceTimeoutRef := silenceTimeoutRef v;
     spoken := spoken v; scheduled := scheduled v;
     voiceToasts := voiceToasts v |}.

(** [recognitionRef.current.stop()] when there is a handle. *)
Definition stopRecognition (v : Voice) : Voice :=
  {| isProcessingRef := isProcessingRef v;
     isGeneratingQuizRef := isGeneratingQuizRef v;
     conversationStepRef := conversationStepRef v;
     conversationStep := conversationStep v;
     voiceResponsesRef := voiceResponsesRef v;
     voiceResponsesState := voiceResponsesState v;
     showVoiceModal := showVoiceModal v;
     voiceInputComplete := voiceInputComplete v;
     recognitionRef := (λ _, false) <$> recognitionRef v;
     silenceTimeoutRef := silenceTimeoutRef v;
     spoken := spoken v; scheduled := scheduled v;
     voiceToasts := voiceToasts v |}.

Definition logError (e : option exn) : M unit :=
  match e with
  | Some e => consoleError e
  | None => mret tt
  end.

Definition topicToast (topic : jsstring) : Toast :=
  {| title := chars "Generating quiz...";
     description := chars "Topic: " ++ take 60 topic
                      ++ (if (60 <? Z.of_nat (length topic)) then chars "..." else []);
     destructive := false |}.

Definition voiceSuccessToast (questions : list value) : Toast :=
  {| title := chars "Quiz generated successfully!";
     description := chars (pretty (length questions))
                      ++ chars " questions ready to start";
     destructive := false |}.

(** The [try]/[catch]/[finally] of [generateVoiceQuizFrom] on the flag and
    the calls it shares with [generateQuiz]. *)
Definition voiceAttempt (vw : VoiceWorld) (topic : jsstring) (questionCount : Z)
    (difficulty : jsstring) : M unit :=
  setIsGenerating true;;
  tryCatchFinally
    (toast (topicToast topic);;
     response ← doFetch (world vw) (buildVoicePrompt topic questionCount difficulty);
     logError (snd (voiceQuestionsOf vw response));;
     questions ← lift (fst (voiceQuestionsOf vw response));
     toast (voiceSuccessToast questions);;
     onQuizGenerated questions)
    (fun e => consoleError e;; toast (generationFailed e))
    (setIsGenerating false).

Definition generateVoiceQuizFrom (vw : VoiceWorld) (topic : jsstring)
    (questionCount : Z) (difficulty : jsstring) (g : VoiceGen) : VoiceGen :=
  {| effects := snd (voiceAttempt vw topic questionCount difficulty (effects g));
     gvoice := generationOver (gvoice g);
     lastQuizGenerationRef := lastQuizGenerationRef g;
     settingsNow := {| questionCount := questionCount; difficulty := difficulty;
                       questionType := chars "mcq" |};
     consoleLogs := consoleLogs g |}.

Definition skip (why : string) (g : VoiceGen) : VoiceGen :=
  {| effects := effects g; gvoice := gvoice g;
     lastQuizGenerationRef := lastQuizGenerationRef g;
     settingsNow := settingsNow g;
     consoleLogs := consoleLogs g ++ [chars why] |}.

Definition missingTopic : Toast :=
  {| title := chars "Missing topic";
     description := chars "Please provide a topic to generate the quiz.";
     destructive := true |}.

(** [generateVoiceQuiz], called at time [now] (milliseconds). *)
Definition generateVoiceQuiz (vw : VoiceWorld) (now : Z) (g : VoiceGen) : VoiceGen :=
  if isGeneratingQuizRef (gvoice g)
  then skip "generateVoiceQuiz: Already generating, skipping duplicate call" g
  else if isGenerating (effects g)
  then skip "generateVoiceQuiz: Already generating (state check), skipping" g
  else if now - lastQuizGenerationRef g <? 2000
  then skip "generateVoiceQuiz: Too soon after last call, skipping" g
  else
    let responses := voiceResponsesRef (gvoice g) in
    let topic := trim (topic responses) in
    let questionCount :=
      match parseInt vw (vQuestionCount responses) with
      | Some n => if n =? 0 then 10 else n
      | None => 10
      end in
    let difficulty :=
      if nonEmpty (vDifficulty responses) then vDifficulty responses
      else chars "medium" in
    if negb (nonEmpty topic) then
      {| effects := snd (toast missingTopic (effects g));
         gvoice := setGeneratingQuiz false (gvoice g);
         lastQuizGenerationRef := now;
         settingsNow := settingsNow g;
         consoleLogs := consoleLogs g |}
    else
      generateVoiceQuizFrom vw topic questionCount difficulty
        {| effects := effects g;
           gvoice := stopRecognition (setGeneratingQuiz true (gvoice g));
           lastQuizGenerationRef := now;
           settingsNow := settingsNow g;
           consoleLogs := consoleLogs g |}.

(** The generator when the component mounts, around a conversation. *)
Definition voiceGenStart (v : Voice) (s : QuizSettingsData) : VoiceGen :=
  {| effects := initial; gvoice := v; lastQuizGenerationRef := 0;
     settingsNow := s; consoleLogs := [] |}.


End VoiceGeneration.

Module VoiceSamples.
Import JS Json FileProcessor QuizGenerator GeneratorSamples MoreSamples.
Import VoiceListening VoiceGeneration Reading.

Definition sampleVoiceWorld : VoiceWorld :=
  {| world := answeringWorld;
     responseText := λ _, inr [];
     parseInt := λ s, if str_eqb s (chars "5") then Some 5 else None;
     ceilSeconds := λ s, s |}.


Definition afterConversation : Voice :=
  converse [chars " the water cycle "; chars "5 please"; chars "easy"]
    conversationStart.

End VoiceSamples.

(* ===================================================================== *)
(** ** Properties of the generation-response handling *)
(* ===================================================================== *)

Module GeneratorProperties.
Import JS Json FileProcessor QuizGenerator Reading GeneratorSamples.

Lemma lit_true c x : lit c x = true ↔ x = c.
Proof.
  unfold lit, ascii_eqb. rewrite Ascii.eqb_eq. split; congruence.
Qed.

Lemma lit_false c x : lit c x = false ↔ x ≠ c.
Proof.
  unfold lit, ascii_eqb. rewrite Ascii.eqb_neq. split; congruence.
Qed.

(** The star of [[\s\S]] followed by a literal stops at the last
    occurrence of the literal. *)
Lemma star_any_then_lit c s :
  matchHere [Star anyChar; Once (lit c)] s =
  match throughLast c s with [] => None | m => Some m end.
Proof.
  induction s as [|x s IH]; [done|].
  cbn [matchHere throughLast] in *. unfold anyChar at 1.
  rewrite IH. destruct (throughLast c s) as [|y m]; [|done].
  destruct (lit c x); done.
Qed.

Lemma throughLast_nil c s : throughLast c s = [] ↔ c ∉ s.
Proof.
  induction s as [|x s IH]; cbn [throughLast].
  - split; [intros _; apply not_elem_of_nil | done].
  - rewrite not_elem_of_cons. destruct (throughLast c s) as [|y m] eqn:E.
    + destruct (lit c x) eqn:L.
      * apply lit_true in L. split; [done | intros [? _]; congruence].
      * apply lit_false in L. split; [intros _|done].
        split; [congruence | by apply IH].
    + split; [done|]. intros [_ H]. apply IH in H. done.
Qed.

Lemma throughLast_app c a b :
  throughLast c (a ++ b) =
  match throughLast c b with [] => throughLast c a | m => a ++ m end.
Proof.
  induction a as [|x a IH]; cbn [throughLast app].
  - by destruct (throughLast c b).
  - rewrite IH. destruct (throughLast c b) as [|y m] eqn:E; [done|].
    destruct a; done.
Qed.

Lemma throughLast_close c a rest :
  throughLast c (a ++ c :: rest) = a ++ c :: throughLast c rest.
Proof.
  rewrite throughLast_app. cbn [throughLast].
  destruct (throughLast c rest) as [|y m] eqn:E.
  - assert (lit c c = true) as -> by by apply lit_true. done.
  - done.
Qed.

(** At one position: the pattern matches where a ['['] stands with a [']']
    somewhere after it, through the last [']']. *)
Lemma arrayPattern_here s :
  matchHere arrayPattern s =
  match s with
  | c :: s' =>
      if lit "[" c then
        match throughLast "]" s' with [] => None | m => Some (c :: m) end
      else None
  | [] => None
  end.
Proof.
  destruct s as [|c s']; [done|].
  unfold arrayPattern. cbn [matchHere].
  destruct (lit "[" c); [|done].
  pose proof (star_any_then_lit "]" s') as H. cbn [matchHere] in H.
  rewrite H. by destruct (throughLast "]" s').
Qed.

Lemma matchFrom_arrayPattern_none i s :
  "]"%char ∉ s → matchFrom arrayPattern i s = None.
Proof.
  revert i. induction s as [|c s IH]; intros i Hs.
  - done.
  - cbn [matchFrom]. rewrite arrayPattern_here.
    apply not_elem_of_cons in Hs as [_ Hs].
    pose proof (proj2 (throughLast_nil "]" s) Hs) as ->.
    destruct (lit "[" c); by apply IH.
Qed.

(** The extraction on a text whose first ['['] is at the head of [s]. *)
Lemma matchFrom_arrayPattern i pre s :
  "["%char ∉ pre →
  matchFrom arrayPattern i (pre ++ "["%char :: s) =
  match throughLast "]" s with
  | [] => None
  | m => Some ((i + length pre)%nat, "["%char :: m)
  end.
Proof.
  revert i. induction pre as [|x pre IH]; intros i Hpre.
  - cbn [app matchFrom]. rewrite arrayPattern_here.
    assert (lit "[" "[" = true) as -> by by apply lit_true.
    destruct (throughLast "]" s) as [|y m] eqn:E.
    + apply matchFrom_arrayPattern_none. by apply throughLast_nil.
    + cbn [length]. by rewrite Nat.add_0_r.
  - apply not_elem_of_cons in Hpre as [Hx Hpre].
    cbn [app matchFrom]. rewrite arrayPattern_here.
    assert (lit "[" x = false) as -> by by apply lit_false.
    rewrite IH by done. destruct (throughLast "]" s); [done|].
    cbn [length]. by rewrite Nat.add_succ_r.
Qed.

Lemma closeBracket_split depth s a rest :
  closeBracket depth s = Some (a, rest) →
  ∃ body, a = body ++ ["]"%char] ∧ s = a ++ rest.
Proof.
  revert depth a rest. induction s as [|c s IH]; intros depth a rest; [done|].
  cbn [closeBracket].
  destruct (lit "]" c) eqn:Hc.
  - apply lit_true in Hc as ->. destruct depth as [|d].
    + intros [= <- <-]. by exists [].
    + destruct (closeBracket d s) as [[a' r']|] eqn:E; [|done].
      intros [= <- <-]. destruct (IH _ _ _ E) as (body & -> & ->).
      by exists ("]"%char :: body).
  - destruct (lit "[" c).
    + destruct (closeBracket (S depth) s) as [[a' r']|] eqn:E; [|done].
      intros [= <- <-]. destruct (IH _ _ _ E) as (body & -> & ->).
      by exists (c :: body).
    + destruct (closeBracket depth s) as [[a' r']|] eqn:E; [|done].
      intros [= <- <-]. destruct (IH _ _ _ E) as (body & -> & ->).
      by exists (c :: body).
Qed.

Lemma firstTopLevelArray_split s a rest :
  firstTopLevelArray s = Some (a, rest) →
  ∃ pre body, s = pre ++ a ++ rest ∧ ("["%char ∉ pre)
              ∧ a = "["%char :: (body ++ ["]"%char]).
Proof.
  induction s as [|c s IH]; [done|].
  cbn [firstTopLevelArray]. destruct (lit "[" c) eqn:Hc.
  - apply lit_true in Hc as ->.
    destruct (closeBracket 0 s) as [[a' r']|] eqn:E; [|done].
    intros [= <- <-]. destruct (closeBracket_split _ _ _ _ E) as (body & -> & ->).
    exists [], body. split_and!; [done | apply not_elem_of_nil | done].
  - apply lit_false in Hc. intros H. destruct (IH H) as (pre & body & -> & Hpre & ->).
    exists (c :: pre), body. split_and!; [done | | done].
    apply not_elem_of_cons. done.
Qed.

(** C1, as the code has it: on a text with a first top-level array, the
    substring handed to [JSON.parse] starts at that array's opening bracket
    and runs through the last closing bracket of the whole text; it is the
    array itself exactly when no closing bracket comes after the array. *)
Theorem jsonMatch_through_last_bracket text arr rest :
  firstTopLevelArray text = Some (arr, rest) →
  jsonMatch text = Some (arr ++ throughLast "]" rest)
  ∧ (jsonMatch text = Some arr ↔ "]"%char ∉ rest).
Proof.
  intros H. apply firstTopLevelArray_split in H as (pre & body & -> & Hpre & ->).
  assert (jsonMatch (pre ++ ("["%char :: (body ++ ["]"%char])) ++ rest)
          = Some (("["%char :: (body ++ ["]"%char])) ++ throughLast "]" rest)) as Hm.
  { unfold jsonMatch, match_.
    replace (pre ++ ("["%char :: (body ++ ["]"%char])) ++ rest)
      with (pre ++ "["%char :: (body ++ "]"%char :: rest))
      by (cbn [app]; by rewrite <- !app_assoc).
    rewrite matchFrom_arrayPattern by done. rewrite throughLast_close.
    destruct body; cbn; by rewrite <- ?app_assoc. }
  split; [done|]. rewrite Hm, <- throughLast_nil. split.
  - intros [= E]. apply (f_equal length) in E.
    rewrite !length_app in E. cbn [length] in E.
    destruct (throughLast "]" rest); [done | cbn [length] in E; lia].
  - intros ->. by rewrite app_nil_r.
Qed.

Lemma jsonMatch_through_last_bracket_witness :
  jsonMatch (chars "Here: [1] ok") = Some (chars "[1]" ++ throughLast "]" (chars " ok"))
  ∧ (jsonMatch (chars "Here: [1] ok") = Some (chars "[1]")
     ↔ "]"%char ∉ chars " ok").
Proof.
  apply (jsonMatch_through_last_bracket (chars "Here: [1] ok") (chars "[1]") (chars " ok")).
  reflexivity.
Defined.

(** C1 as stated fails: after a complete array, a later closing bracket
    stretches the extracted substring beyond the array. *)
Lemma jsonMatch_overruns_first_array :
  let text := chars "[[1,2],[3]] as in [4]" in
  firstTopLevelArray text = Some (chars "[[1,2],[3]]", chars " as in [4]")
  ∧ "]"%char ∈ chars " as in [4]"
  ∧ jsonMatch text = Some (chars "[[1,2],[3]] as in [4]")
  ∧ jsonMatch text ≠ Some (chars "[[1,2],[3]]").
Proof.
  cbn zeta. split_and!.
  - reflexivity.
  - repeat (apply elem_of_cons; first [left; reflexivity | right]).
  - reflexivity.
  - intros [=].
Qed.

(** The callback of [every], without its control flow. *)
Lemma isValidQuestion_superficial q :
  isValidQuestion q =
  if nullish q
  then inl (Err ETypeError (chars "Cannot read properties of null or undefined"))
  else inr (superficial q).
Proof.
  unfold isValidQuestion, superficial.
  destruct q as [| |b|n|s|items|fields]; try done.
  cbn [getProp getPropOpt nullish].
  destruct (truthy (lookupField (chars "question") fields)); [|done].
  cbn [negb andb].
  destruct (lookupField (chars "options") fields) as [| |b|n|s|items|fs]; try done.
  destruct (length items =? 4)%nat; [|done]. cbn [negb andb].
  destruct (is_number (lookupField (chars "correctAnswerIndex") fields)); done.
Qed.

Lemma every_accepts qs :
  every isValidQuestion qs = inr true ↔ Forall (λ q, superficial q = true) qs.
Proof.
  induction qs as [|q qs IH]; cbn [every].
  - split; [by constructor | done].
  - rewrite isValidQuestion_superficial, Forall_cons.
    destruct (nullish q) eqn:Hn.
    + split; [done|]. intros [Hq _]. destruct q; done.
    + destruct (superficial q); [|split; [done | by intros [? _]]].
      rewrite IH. split; [by intros ? | by intros [_ ?]].
Qed.






(** Unfolding one run of [generateQuiz] down to the outcomes of the
    world. *)
Ltac run_generateQuiz :=
  unfold generateQuiz, outcome, tryCatchFinally, mbind, M_bind, mret, M_ret,
    setIsGenerating, toast, lift, doFetch, consoleError, onQuizGenerated in *;
  cbn [negb fst snd isGenerating toasts fetches generated consoleErrors] in *.

(** Whatever goes wrong while a file is read, the error that reaches
    [generateQuiz] carries the one readable message. *)
Lemma extractTextFromFile_failure_message r f e :
  extractTextFromFile r f = inl e →
  e = error "Failed to extract text from file. Please check the file format and try again.".
Proof.
  unfold extractTextFromFile.
  repeat case_match; intros [= <-]; done.
Qed.

Lemma validateQuestions_empty :
  validateQuestions (Arr []) = inl (error "No valid questions generated").
Proof. done. Qed.

(** The failures the component distinguishes all make [outcome] an error. *)
Lemma outcome_extraction_failure w i f e :
  inputType i = file → selectedFile i = Some f →
  extractTextFromFile (readers w) f = inl e →
  outcome w i = inl e.
Proof. intros Hi Hf He. unfold outcome, contentOf. by rewrite Hi, Hf, He. Qed.

Lemma outcome_not_ok w i content response :
  contentOf w i = inr content →
  fetch w (requestFor i content) = inr response →
  ok response = false →
  outcome w i
  = inl (Err EError (chars "API Error: " ++ chars (pretty (status response))
                       ++ chars " " ++ statusText response)).
Proof.
  intros Hc Hf Hok. unfold outcome, questionsOf. by rewrite Hc, Hf, Hok.
Qed.

Lemma outcome_bad_text w i content response data text e :
  contentOf w i = inr content →
  fetch w (requestFor i content) = inr response →
  ok response = true →
  json response = inr data →
  generatedTextOf data = inr text →
  parseGenerated w text = inl e →
  outcome w i = inl e.
Proof.
  intros Hc Hf Hok Hj Ht Hp. unfold outcome, questionsOf.
  by rewrite Hc, Hf, Hok, Hj, Ht, Hp.
Qed.

Lemma parseGenerated_missing_text w :
  parseGenerated w Undefined = inl (error "No response from AI").
Proof. done. Qed.

Lemma parseGenerated_invalid_array w text m parsed e :
  text ≠ [] → jsonMatch text = Some m → JSON_parse w m = inr parsed →
  validateQuestions parsed = inl e →
  parseGenerated w (Str text) = inl e.
Proof.
  intros Hne Hm Hp Hv. unfold parseGenerated.
  destruct text; [done|]. cbn [truthy negb]. by rewrite Hm, Hp, Hv.
Qed.

(** A generation that succeeds hands its questions over, once. *)
Lemma generateQuiz_success w i st qs :
  isReadyToGenerate i = true →
  outcome w i = inr qs →
  fst (generateQuiz w i st) = inr tt
  ∧ isGenerating (snd (generateQuiz w i st)) = false
  ∧ generated (snd (generateQuiz w i st)) = generated st ++ [qs].
Proof.
  intros Hready Ho. run_generateQuiz. rewrite Hready.
  destruct (contentOf w i) as [e1|content]; [done|].
  cbn [negb fst snd isGenerating toasts fetches generated consoleErrors].
  destruct (fetch w (requestFor i content)) as [e2|response]; [done|].
  destruct (questionsOf w response) as [e3|qs']; [done|].
  by injection Ho as ->.
Qed.

(** C3: whatever fails inside one generation, [generateQuiz] itself
    returns normally.  The last notification it shows is the destructive
    toast titled "Generation failed" whose description is the message of
    the error thrown ("Unknown error occurred" for a thrown value that is
    no Error); the error is logged, [onQuizGenerated] is not called, at
    most the one request was sent, and [isGenerating] is back to false. *)
Theorem generateQuiz_catches_every_failure w i st e :
  isReadyToGenerate i = true →
  outcome w i = inl e →
  fst (generateQuiz w i st) = inr tt
  ∧ isGenerating (snd (generateQuiz w i st)) = false
  ∧ generated (snd (generateQuiz w i st)) = generated st
  ∧ last (toasts (snd (generateQuiz w i st)))
    = Some {| title := chars "Generation failed";
              description := match e with
                             | Err _ message => message
                             | NonError => chars "Unknown error occurred"
                             end;
              destructive := true |}
  ∧ last (consoleErrors (snd (generateQuiz w i st))) = Some e
  ∧ (length (fetches (snd (generateQuiz w i st))) ≤ S (length (fetches st)))%nat.
Proof.
  intros Hready Ho. run_generateQuiz. rewrite Hready.
  destruct (contentOf w i) as [e1|content];
    cbn [negb fst snd isGenerating toasts fetches generated consoleErrors].
  { injection Ho as ->. rewrite !last_snoc. split_and!; [done..|lia]. }
  destruct (fetch w (requestFor i content)) as [e2|response];
    cbn [negb fst snd isGenerating toasts fetches generated consoleErrors].
  { injection Ho as ->. rewrite !last_snoc, length_app. cbn [length].
    split_and!; [done..|lia]. }
  destruct (questionsOf w response) as [e3|qs'];
    cbn [negb fst snd isGenerating toasts fetches generated consoleErrors];
    [|done].
  injection Ho as ->. rewrite !last_snoc, length_app. cbn [length].
  split_and!; [done..|lia].
Qed.

Lemma generateQuiz_catches_every_failure_witness :
  let e := Err EError (chars "API Error: 500 Internal Server Error") in
  let r := generateQuiz failingWorld webInputs initial in
  fst r = inr tt
  ∧ isGenerating (snd r) = false
  ∧ generated (snd r) = []
  ∧ last (toasts (snd r))
    = Some {| title := chars "Generation failed";
              description := chars "API Error: 500 Internal Server Error";
              destructive := true |}
  ∧ last (consoleErrors (snd r)) = Some e
  ∧ (length (fetches (snd r)) ≤ 1)%nat.
Proof.
  apply (generateQuiz_catches_every_failure failingWorld webInputs initial
           (Err EError (chars "API Error: 500 Internal Server Error"))).
  - reflexivity.
  - reflexivity.
Defined.

End GeneratorProperties.

(* ===================================================================== *)
(** ** Properties of the voice conversation *)
(* ===================================================================== *)

Module VoiceProperties.
Import JS Json QuizGenerator Reading GeneratorSamples.

Lemma isPrefixOf_spec p s : isPrefixOf p s = true ↔ ∃ post, s = p ++ post.
Proof.
  revert s. induction p as [|a p IH]; intros s; cbn [isPrefixOf].
  - split; [by exists s | done].
  - destruct s as [|b s].
    + split; [done | by intros [? ?]].
    + rewrite andb_true_iff, IH. unfold ascii_eqb. rewrite Ascii.eqb_eq.
      split.
      * intros [-> [post ->]]. by exists post.
      * intros [post [= -> ->]]. split; [done | by exists post].
Qed.

Lemma includes_spec s pat :
  includes s pat = true ↔ ∃ pre post, s = pre ++ pat ++ post.
Proof.
  induction s as [|x s IH]; cbn [includes]; rewrite orb_true_iff, isPrefixOf_spec.
  - split.
    + intros [[post H]|?]; [by exists [], post | done].
    + intros (pre & post & H). left. destruct pre; [by exists post | done].
  - rewrite IH. split.
    + intros [[post H]|(pre & post & ->)]; [by exists [], post|].
      by exists (x :: pre), post.
    + intros ([|y pre] & post & H); [left; by exists post|].
      right. injection H as -> ->. by exists pre, post.
Qed.

Lemma includes_occurs s pat : includes s (chars pat) = true ↔ occurs pat s.
Proof. apply includes_spec. Qed.

Lemma processVoiceResponse_rank t v :
  rank (conversationStepRef (processVoiceResponse t v)) = rank (conversationStepRef v)
  ∨ rank (conversationStepRef (processVoiceResponse t v))
    = S (rank (conversationStepRef v)).
Proof.
  unfold processVoiceResponse. destruct v as [p g step ? ? ? ? ? ? ? ? ? ?].
  cbn. destruct p; [by left|]. destruct step; cbn.
  - destruct (_ <? 3); cbn; auto.
  - auto.
  - auto.
Qed.

Lemma converse_rank_monotone ts v :
  (rank (conversationStepRef v) ≤ rank (conversationStepRef (converse ts v)))%nat.
Proof.
  revert v. induction ts as [|t ts IH]; intros v; [done|].
  cbn [converse foldl]. etrans; [|apply IH].
  destruct (processVoiceResponse_rank t v) as [-> | ->]; lia.
Qed.

(** The topic step on any transcript: the code measures and stores the
    trimmed transcript, whatever it was given. *)
Lemma processVoiceResponse_topic t v :
  isProcessingRef v = false →
  conversationStepRef v = StepTopic →
  let v' := processVoiceResponse t v in
  ((3 ≤ length (trim t))%nat →
     conversationStepRef v' = StepQuestions ∧ conversationStep v' = StepQuestions
     ∧ topic (voiceResponsesState v') = trim t
     ∧ vQuestionCount (voiceResponsesState v') = vQuestionCount (voiceResponsesState v)
     ∧ vDifficulty (voiceResponsesState v') = vDifficulty (voiceResponsesState v)
     ∧ voiceResponsesRef v' = voiceResponsesState v')
  ∧ ((length (trim t) < 3)%nat →
     conversationStepRef v' = StepTopic ∧ conversationStep v' = conversationStep v
     ∧ voiceResponsesRef v' = voiceResponsesRef v
     ∧ voiceResponsesState v' = voiceResponsesState v).
Proof.
  intros Hp Hs v'. subst v'. unfold processVoiceResponse. rewrite Hp. cbn.
  rewrite Hs. split; intros Hlen.
  - destruct (Z.ltb_spec (Z.of_nat (length (trim t))) 3); [lia|]. done.
  - destruct (Z.ltb_spec (Z.of_nat (length (trim t))) 3); [|lia]. done.
Qed.

(** C7: the dialogue goes topic, questions, difficulty.  The transcript
    reaches [processVoiceResponse] from the silence timer only, which
    passes [currentTranscriptRef.current.trim()]: it has no white space at
    either end.  At the topic step such a transcript of at least three code
    units becomes the stored topic, in the state and in its ref, with the
    other two responses as they were, and the dialogue moves to the
    questions step; a shorter one changes neither the step nor the
    responses; the questions step moves to the difficulty step; the
    difficulty step closes the modal and marks the voice input complete.
    One response never moves the step by more than one place, and over any
    run of responses the step never goes back. *)
Theorem voice_dialogue_in_order t v :
  isProcessingRef v = false →
  trim t = t →
  let v' := processVoiceResponse t v in
  (conversationStepRef v = StepTopic → (3 ≤ length t)%nat →
     conversationStepRef v' = StepQuestions ∧ conversationStep v' = StepQuestions
     ∧ topic (voiceResponsesState v') = t
     ∧ topic (voiceResponsesRef v') = t
     ∧ vQuestionCount (voiceResponsesState v') = vQuestionCount (voiceResponsesState v)
     ∧ vDifficulty (voiceResponsesState v') = vDifficulty (voiceResponsesState v)
     ∧ voiceResponsesRef v' = voiceResponsesState v')
  ∧ (conversationStepRef v = StepTopic → (length t < 3)%nat →
     conversationStepRef v' = StepTopic ∧ conversationStep v' = conversationStep v
     ∧ voiceResponsesRef v' = voiceResponsesRef v
     ∧ voiceResponsesState v' = voiceResponsesState v)
  ∧ (conversationStepRef v = StepQuestions →
     conversationStepRef v' = StepDifficulty
     ∧ conversationStep v' = StepDifficulty)
  ∧ (conversationStepRef v = StepDifficulty →
     showVoiceModal v' = false ∧ voiceInputComplete v' = true
     ∧ conversationStepRef v' = StepDifficulty)
  ∧ (rank (conversationStepRef v') = rank (conversationStepRef v)
     ∨ rank (conversationStepRef v') = S (rank (conversationStepRef v)))
  ∧ (∀ ts, (rank (conversationStepRef v)
            ≤ rank (conversationStepRef (converse ts v)))%nat)
  ∧ isProcessingRef v' = false.
Proof.
  intros Hp Htrim v'. split_and!.
  - intros Hs Hlen.
    destruct (processVoiceResponse_topic t v Hp Hs) as [Hlong _].
    rewrite Htrim in Hlong.
    destruct (Hlong Hlen) as (H1 & H2 & H3 & H4 & H5 & H6).
    fold v' in H1, H2, H3, H4, H5, H6.
    split_and!; try done. by rewrite H6.
  - intros Hs Hlen.
    destruct (processVoiceResponse_topic t v Hp Hs) as [_ Hshort].
    rewrite Htrim in Hshort. exact (Hshort Hlen).
  - intros Hs. subst v'. unfold processVoiceResponse. rewrite Hp. cbn.
    by rewrite Hs.
  - intros Hs. subst v'. unfold processVoiceResponse. rewrite Hp. cbn.
    by rewrite Hs.
  - apply processVoiceResponse_rank.
  - intros ts. apply converse_rank_monotone.
  - subst v'. unfold processVoiceResponse. rewrite Hp. cbn.
    destruct (conversationStepRef v); [destruct (_ <? 3)|..]; done.
Qed.

Lemma voice_dialogue_in_order_witness :
  let v := conversationStart in
  let v' := processVoiceResponse (chars "Photosynthesis") v in
  conversationStepRef v' = StepQuestions ∧ conversationStep v' = StepQuestions
  ∧ topic (voiceResponsesState v') = chars "Photosynthesis"
  ∧ topic (voiceResponsesRef v') = chars "Photosynthesis"
  ∧ vQuestionCount (voiceResponsesState v') = vQuestionCount (voiceResponsesState v)
  ∧ vDifficulty (voiceResponsesState v') = vDifficulty (voiceResponsesState v)
  ∧ voiceResponsesRef v' = voiceResponsesState v'.
Proof.
  apply (voice_dialogue_in_order (chars "Photosynthesis") conversationStart).
  - reflexivity.
  - reflexivity.
  - reflexivity.
  - by apply Nat.leb_le.
Defined.

(** C10: at the difficulty step every transcript is given one of the three
    levels: easy when the lowered transcript has "easy" or "simple" in it,
    whatever else it has; otherwise hard when it has "hard", "difficult" or
    "advanced"; medium in every other case. *)
Theorem difficulty_step_total t v :
  isProcessingRef v = false →
  conversationStepRef v = StepDifficulty →
  let low := trim (toLowerCase t) in
  let d := vDifficulty (voiceResponsesRef (processVoiceResponse t v)) in
  (d = chars "easy" ∨ d = chars "medium" ∨ d = chars "hard")
  ∧ (occurs "easy" low ∨ occurs "simple" low → d = chars "easy")
  ∧ (¬ (occurs "easy" low ∨ occurs "simple" low) →
     occurs "hard" low ∨ occurs "difficult" low ∨ occurs "advanced" low →
     d = chars "hard")
  ∧ (¬ (occurs "easy" low ∨ occurs "simple" low) →
     ¬ (occurs "hard" low ∨ occurs "difficult" low ∨ occurs "advanced" low) →
     d = chars "medium").
Proof.
  intros Hp Hs low d.
  assert (d = difficultyOf low) as ->.
  { subst d low. unfold processVoiceResponse. rewrite Hp. cbn. by rewrite Hs. }
  unfold difficultyOf. rewrite <- !includes_occurs.
  destruct (includes low (chars "easy")), (includes low (chars "simple")),
    (includes low (chars "hard")), (includes low (chars "difficult")),
    (includes low (chars "advanced")); cbn [orb];
    (split_and!; [auto | intuition discriminate..]).
Qed.

Lemma difficulty_step_total_witness :
  let low := trim (toLowerCase (chars "Not too HARD, keep it simple")) in
  let d := vDifficulty (voiceResponsesRef
             (processVoiceResponse (chars "Not too HARD, keep it simple")
                atDifficultyStep)) in
  (d = chars "easy" ∨ d = chars "medium" ∨ d = chars "hard")
  ∧ (occurs "easy" low ∨ occurs "simple" low → d = chars "easy")
  ∧ (¬ (occurs "easy" low ∨ occurs "simple" low) →
     occurs "hard" low ∨ occurs "difficult" low ∨ occurs "advanced" low →
     d = chars "hard")
  ∧ (¬ (occurs "easy" low ∨ occurs "simple" low) →
     ¬ (occurs "hard" low ∨ occurs "difficult" low ∨ occurs "advanced" low) →
     d = chars "medium").
Proof.
  apply (difficulty_step_total (chars "Not too HARD, keep it simple")
           atDifficultyStep); reflexivity.
Defined.

End VoiceProperties.

(* ===================================================================== *)
(** ** Properties of quiz taking *)
(* ===================================================================== *)

Module TakingProperties.
Import JS QuizTaking Reading TakingSamples.

(** Case analysis on one event. *)
Ltac step_cases H :=
  unfold step, handleNextQuestion, handleUseHint, handlePreviousQuestion,
    handleOptionSelect, advance, complete, moveBy, removeTimer, newAnswer in H;
  repeat (case_match; simplify_option_eq; try done);
  cbn [currentQuestionIndex userAnswers selectedOption showAnswer credits
       isQuizComplete usedHints timers toasts] in *.

(** What an event does to the credits and to the set of used hints: nothing,
    unless it is a click on the hint button, which is enabled only for a
    new question and with two credits left. *)
Lemma step_hint questions st ev st' :
  step questions st ev = Some st' →
  (ev ≠ ClickHint ∧ credits st' = credits st ∧ usedHints st' = usedHints st)
  ∨ (ev = ClickHint ∧ 2 ≤ credits st
     ∧ (currentQuestionIndex st ∉ usedHints st)
     ∧ credits st' = credits st - 2
     ∧ usedHints st' = usedHints st ∪ {[currentQuestionIndex st]}).
Proof.
  intros H. destruct ev; try (left; step_cases H; done).
  right. unfold step in H.
  destruct (questionShown questions st && canUseHint st) eqn:Hen; [|done].
  apply andb_prop in Hen as [_ Hcan]. unfold handleUseHint in H.
  rewrite Hcan in H. cbn [negb] in H.
  unfold canUseHint in Hcan. apply andb_prop in Hcan as [Hc Hn].
  apply Z.leb_le in Hc. apply negb_true_iff, bool_decide_eq_false in Hn.
  destruct (currentQuestion questions st); simplify_option_eq. done.
Qed.

Lemma run_app questions st evs1 evs2 :
  run questions st (evs1 ++ evs2)
  = st' ← run questions st evs1; run questions st' evs2.
Proof.
  revert st. induction evs1 as [|ev evs1 IH]; intros st; [done|].
  cbn [app run]. destruct (step questions st ev) as [st1|]; [|done].
  apply IH.
Qed.

(** Along a run: the set of used hints grows by the indices on which a
    hint was taken, no index is taken twice, and each one costs two
    credits. *)
Lemma hints_along_run questions evs st st' :
  run questions st evs = Some st' →
  usedHints st' = usedHints st ∪ list_to_set (hintsTaken questions st evs)
  ∧ NoDup (hintsTaken questions st evs)
  ∧ (∀ i, i ∈ hintsTaken questions st evs → i ∉ usedHints st)
  ∧ credits st' = credits st - 2 * Z.of_nat (length (hintsTaken questions st evs))
  ∧ (0 ≤ credits st → 0 ≤ credits st').
Proof.
  revert st. induction evs as [|ev evs IH]; intros st Hrun.
  - injection Hrun as <-. cbn [hintsTaken length list_to_set].
    split_and!; [set_solver | constructor | set_solver | lia | done].
  - cbn [run hintsTaken] in *.
    destruct (step questions st ev) as [st1|] eqn:Hstep; [|done].
    cbn in Hrun. destruct (IH _ Hrun) as (Hset & Hnd & Hfresh & Hcred & Hpos).
    destruct (step_hint _ _ _ _ Hstep)
      as [(Hev & Hc & Hu) | (-> & Hc2 & Hnew & Hc & Hu)].
    + assert (match ev with ClickHint => [currentQuestionIndex st] | _ => [] end
              = []) as -> by by destruct ev.
      cbn [app]. rewrite Hu in Hset, Hfresh. rewrite Hc in Hcred, Hpos.
      done.
    + cbn [app length list_to_set]. rewrite Hu in Hset, Hfresh.
      split_and!.
      * rewrite Hset. set_solver.
      * constructor; [|done]. intros Hin. apply Hfresh in Hin. set_solver.
      * intros i [->|Hin]%elem_of_cons; [done|].
        apply Hfresh in Hin. set_solver.
      * lia.
      * lia.
Qed.

(** C9: credits start at ten; the hint button works only with two credits
    left and on a question without a hint yet, takes exactly two credits
    and adds the question to the used hints; so after any run the credits
    are even, between 0 and 10, and ten minus twice the number of
    questions on which a hint was taken, none of them twice. *)
Theorem hint_credits_invariant questions evs st :
  run questions initial evs = Some st →
  credits initial = 10
  ∧ credits st = 10 - 2 * Z.of_nat (size (usedHints st))
  ∧ 0 ≤ credits st ≤ 10
  ∧ Z.Even (credits st)
  ∧ usedHints st = list_to_set (hintsTaken questions initial evs)
  ∧ NoDup (hintsTaken questions initial evs)
  ∧ (∀ st', step questions st ClickHint = Some st' →
       2 ≤ credits st ∧ (currentQuestionIndex st ∉ usedHints st)
       ∧ credits st' = credits st - 2
       ∧ usedHints st' = usedHints st ∪ {[currentQuestionIndex st]})
  ∧ (∀ ev st', ev ≠ ClickHint → step questions st ev = Some st' →
       credits st' = credits st ∧ usedHints st' = usedHints st).
Proof.
  intros Hrun.
  destruct (hints_along_run _ _ _ _ Hrun) as (Hset & Hnd & _ & Hcred & Hpos).
  cbn [credits usedHints initial] in Hset, Hcred, Hpos.
  assert (usedHints st = list_to_set (hintsTaken questions initial evs)) as Hset'
    by (rewrite Hset; set_solver).
  assert (size (usedHints st) = length (hintsTaken questions initial evs)) as Hsize.
  { rewrite Hset'. by apply size_list_to_set. }
  split_and!.
  - done.
  - rewrite Hsize. lia.
  - lia.
  - lia.
  - exists (5 - Z.of_nat (length (hintsTaken questions initial evs))). lia.
  - done.
  - done.
  - intros st' Hstep.
    destruct (step_hint _ _ _ _ Hstep) as [(? & _) | (_ & ? & ? & ? & ?)]; done.
  - intros ev st' Hev Hstep.
    destruct (step_hint _ _ _ _ Hstep) as [(_ & ? & ?) | (? & _)]; done.
Qed.

Lemma hint_credits_invariant_witness :
  credits afterSampleSession = 10 - 2 * Z.of_nat (size (usedHints afterSampleSession))
  ∧ 0 ≤ credits afterSampleSession ≤ 10.
Proof.
  pose proof (hint_credits_invariant sampleQuiz sampleSession afterSampleSession
                eq_refl) as (_ & H1 & H2 & _).
  exact (conj H1 H2).
Defined.

(** What an event does to the recorded answers: nothing, unless it is a
    click on Next with an option selected on a question without an answer,
    which appends the answer for the current question. *)
Lemma step_answers questions st ev st' :
  step questions st ev = Some st' →
  userAnswers st' = userAnswers st
  ∨ (ev = ClickNext ∧ hasAnswered st = None
     ∧ ∃ q selected, currentQuestion questions st = Some q
         ∧ selectedOption st = Some selected
         ∧ userAnswers st' = userAnswers st ++ [newAnswer q st selected]).
Proof.
  intros H. destruct ev; try (left; step_cases H; done).
  unfold step in H.
  destruct (questionShown questions st && _); [|done].
  unfold handleNextQuestion in H.
  destruct (selectedOption st) as [selected|] eqn:Hsel,
           (hasAnswered st) as [a|] eqn:Hans; simplify_option_eq.
  - left. unfold advance, complete, moveBy. by case_match.
  - right. split_and!; [done..|]. eauto.
  - left. unfold advance, complete, moveBy. by case_match.
  - by left.
Qed.

Lemma hasAnswered_none st :
  hasAnswered st = None →
  currentQuestionIndex st ∉ questionIndex <$> userAnswers st.
Proof.
  unfold hasAnswered. intros Hnone [a [Hidx Hin]]%list_elem_of_fmap.
  apply list_elem_of_In in Hin.
  pose proof (List.find_none _ _ Hnone a Hin) as Hf. cbn in Hf. lia.
Qed.

(** Along a run the recorded answers only grow, by answers for indices not
    yet answered. *)
Lemma answers_along_run questions evs st st' :
  run questions st evs = Some st' →
  NoDup (questionIndex <$> userAnswers st) →
  NoDup (questionIndex <$> userAnswers st')
  ∧ ∃ added, userAnswers st' = userAnswers st ++ added.
Proof.
  revert st. induction evs as [|ev evs IH]; intros st Hrun Hnd.
  - injection Hrun as <-. split; [done|]. exists []. by rewrite app_nil_r.
  - cbn [run] in Hrun.
    destruct (step questions st ev) as [st1|] eqn:Hstep; [|done]. cbn in Hrun.
    destruct (step_answers _ _ _ _ Hstep)
      as [Hsame | (_ & Hnone & q & selected & _ & _ & Happ)].
    + rewrite <- Hsame. apply IH; [done | by rewrite Hsame].
    + assert (NoDup (questionIndex <$> userAnswers st1)) as Hnd1.
      { rewrite Happ, fmap_app. apply NoDup_app. split_and!; [done| |].
        - intros i Hi [->|[]%elem_of_nil]%elem_of_cons.
          by apply hasAnswered_none in Hnone.
        - apply NoDup_singleton. }
      destruct (IH _ Hrun Hnd1) as (Hnd' & added & Hadd). split; [done|].
      exists (newAnswer q st selected :: added).
      by rewrite Hadd, Happ, <- app_assoc.
Qed.

(** C8: among the recorded answers no question index occurs twice; an
    answer is recorded only by Next on a question that has none; and
    whatever happens later leaves the recorded answers in place, adding
    only answers for other indices. *)
Theorem answers_never_change questions evs1 evs2 st1 st2 :
  run questions initial evs1 = Some st1 →
  run questions st1 evs2 = Some st2 →
  NoDup (questionIndex <$> userAnswers st1)
  ∧ (∃ added, userAnswers st2 = userAnswers st1 ++ added
       ∧ ∀ a b, a ∈ added → b ∈ userAnswers st1 →
                questionIndex a ≠ questionIndex b)
  ∧ (∀ ev st', step questions st1 ev = Some st' →
       userAnswers st' = userAnswers st1
       ∨ (ev = ClickNext ∧ hasAnswered st1 = None
          ∧ ∃ a, userAnswers st' = userAnswers st1 ++ [a]
                 ∧ questionIndex a = currentQuestionIndex st1)).
Proof.
  intros Hrun1 Hrun2.
  destruct (answers_along_run _ _ _ _ Hrun1) as (Hnd1 & _); [constructor|].
  destruct (answers_along_run _ _ _ _ Hrun2 Hnd1) as (Hnd2 & added & Hadd).
  split_and!.
  - done.
  - exists added. split; [done|]. intros a b Ha Hb Heq.
    rewrite Hadd, fmap_app in Hnd2. apply NoDup_app in Hnd2 as (_ & Hdisj & _).
    apply (Hdisj (questionIndex b)).
    + apply list_elem_of_fmap. eauto.
    + rewrite <- Heq. apply list_elem_of_fmap. eauto.
  - intros ev st' Hstep.
    destruct (step_answers _ _ _ _ Hstep)
      as [Hsame | (-> & Hnone & q & selected & _ & _ & Happ)]; [by left|].
    right. split_and!; [done..|]. by exists (newAnswer q st1 selected).
Qed.

Lemma answers_never_change_witness :
  NoDup (questionIndex <$> userAnswers afterSampleSession)
  ∧ ∃ added, userAnswers (default initial
               (run sampleQuiz afterSampleSession [ClickOption 0; ClickNext]))
             = userAnswers afterSampleSession ++ added
       ∧ ∀ a b, a ∈ added → b ∈ userAnswers afterSampleSession →
                questionIndex a ≠ questionIndex b.
Proof.
  pose proof (answers_never_change sampleQuiz sampleSession
                [ClickOption 0; ClickNext] afterSampleSession
                (default initial
                   (run sampleQuiz afterSampleSession [ClickOption 0; ClickNext]))
                eq_refl eq_refl) as (H1 & H2 & _).
  exact (conj H1 H2).
Defined.

(** C6: the answer that Next records for the selected option is marked
    correct exactly when the selected index is the question's
    correct-answer index, and marked as helped by a hint exactly when a
    hint was taken on that question earlier in the session. *)
Theorem recorded_answer_flags questions evs st st' :
  run questions initial evs = Some st →
  step questions st ClickNext = Some st' →
  userAnswers st' ≠ userAnswers st →
  ∃ q selected a,
    currentQuestion questions st = Some q
    ∧ selectedOption st = Some selected
    ∧ userAnswers st' = userAnswers st ++ [a]
    ∧ questionIndex a = currentQuestionIndex st
    ∧ selectedAnswer a = selected
    ∧ (isCorrect a = true ↔ selected = correctAnswerIndex q)
    ∧ (usedHint a = true
       ↔ currentQuestionIndex st ∈ hintsTaken questions initial evs).
Proof.
  intros Hrun Hstep Hnew.
  destruct (step_answers _ _ _ _ Hstep)
    as [Hsame | (_ & _ & q & selected & Hq & Hsel & Happ)]; [done|].
  exists q, selected, (newAnswer q st selected).
  split_and!; [done..| |].
  - cbn [newAnswer isCorrect]. apply Z.eqb_eq.
  - cbn [newAnswer usedHint]. rewrite bool_decide_eq_true.
    destruct (hints_along_run _ _ _ _ Hrun) as (-> & _).
    cbn [usedHints initial]. set_solver.
Qed.

Lemma recorded_answer_flags_witness :
  ∃ q selected a,
    currentQuestion sampleQuiz
      (default initial (run sampleQuiz initial [ClickHint; ClickOption 1]))
    = Some q
    ∧ selectedOption
        (default initial (run sampleQuiz initial [ClickHint; ClickOption 1]))
      = Some selected
    ∧ userAnswers
        (default initial (run sampleQuiz initial [ClickHint; ClickOption 1; ClickNext]))
      = [a]
    ∧ questionIndex a = 0
    ∧ selectedAnswer a = selected
    ∧ (isCorrect a = true ↔ selected = correctAnswerIndex q)
    ∧ (usedHint a = true
       ↔ 0 ∈ hintsTaken sampleQuiz initial [ClickHint; ClickOption 1]).
Proof.
  apply (recorded_answer_flags sampleQuiz [ClickHint; ClickOption 1]
           (default initial (run sampleQuiz initial [ClickHint; ClickOption 1]))
           (default initial
              (run sampleQuiz initial [ClickHint; ClickOption 1; ClickNext]))).
  - reflexivity.
  - reflexivity.
  - discriminate.
Defined.

(** *** Navigation *)

(** When nothing comes between the click that records an answer and its
    timer, the timer moves to the next question and clears the selection,
    or completes the quiz on the last question. *)
Lemma auto_advance_undisturbed questions st st1 :
  timers st = [] →
  step questions st ClickNext = Some st1 →
  userAnswers st1 ≠ userAnswers st →
  currentQuestionIndex st1 = currentQuestionIndex st
  ∧ showAnswer st1 = true
  ∧ delay <$> timers st1 = [2000]
  ∧ ∃ st2, step questions st1 TimerFires = Some st2
      ∧ timers st2 = []
      ∧ (isLastQuestion questions st = false →
         currentQuestionIndex st2 = currentQuestionIndex st + 1
         ∧ selectedOption st2 = None ∧ showAnswer st2 = false
         ∧ isQuizComplete st2 = isQuizComplete st)
      ∧ (isLastQuestion questions st = true →
         currentQuestionIndex st2 = currentQuestionIndex st
         ∧ isQuizComplete st2 = true).
Proof.
  intros Ht Hstep Hnew. unfold step in Hstep.
  destruct (questionShown questions st && _); [|done].
  unfold handleNextQuestion in Hstep.
  destruct (selectedOption st) as [selected|] eqn:Hsel,
           (hasAnswered st) as [a|] eqn:Hans; simplify_option_eq;
    try (exfalso; apply Hnew; unfold advance, complete, moveBy;
         by case_match).
  cbn. rewrite Ht. cbn. split_and!; [done..|].
  destruct (isLastQuestion questions st); cbn; eexists; split_and!; done.
Qed.

(** Previous goes back by exactly one, and only from a positive index. *)
Lemma previous_decrements questions st st' :
  step questions st ClickPrevious = Some st' →
  0 < currentQuestionIndex st
  ∧ currentQuestionIndex st' = currentQuestionIndex st - 1
  ∧ selectedOption st' = None ∧ showAnswer st' = false.
Proof.
  unfold step, questionShown, currentQuestion, at_. intros H.
  destruct (isQuizComplete st); [done|]. cbn [negb andb] in H.
  destruct (Z.ltb_spec (currentQuestionIndex st) 0); [by rewrite bool_decide_false in H by by intros [? ?]|].
  destruct (bool_decide _); [|done]. cbn [andb] in H.
  destruct (Z.eqb_spec (currentQuestionIndex st) 0); [done|].
  cbn [negb] in H. unfold handlePreviousQuestion in H.
  destruct (Z.ltb_spec 0 (currentQuestionIndex st)); [|lia].
  injection H as <-. cbn. split_and!; [lia | lia | done | done].
Qed.

(** C5, where it breaks: a second click on Next while the answer is shown
    moves on at once, and the timer of the first click then moves on
    again.  With two questions this leaves index 2, outside 0..1, on a
    quiz that is not complete and has no question to show. *)
Theorem double_next_leaves_question_range :
  ∃ st,
    run sampleQuiz initial [ClickOption 1; ClickNext; ClickNext; TimerFires]
    = Some st
    ∧ currentQuestionIndex st = 2
    ∧ Z.of_nat (length sampleQuiz) = 2
    ∧ isQuizComplete st = false
    ∧ currentQuestion sampleQuiz st = None.
Proof. eexists. split_and!; reflexivity. Qed.

(** *** The score *)

Lemma calculateScore_counts questions st :
  correctAnswers (calculateScore questions st)
  = Z.of_nat (length (filter (λ a, isCorrect a = true) (userAnswers st)))
  ∧ totalQuestions (calculateScore questions st) = Z.of_nat (length questions)
  ∧ percentage (calculateScore questions st)
    = percentageOf (correctAnswers (calculateScore questions st))
                   (totalQuestions (calculateScore questions st)).
Proof. done. Qed.

(** The percentage is the half-up rounding of the exact quotient for every
    quiz of fewer than forty questions. *)
Lemma percentage_exact_below_forty :
  forallb (λ m,
    forallb (λ n,
      Number.same (percentageOf (Z.of_nat n) (Z.of_nat m))
                  (Number.ofZ (roundHalfUp (100 * Z.of_nat n) (Z.of_nat m))))
      (seq 0 (S m)))
    (seq 1 39) = true.
Proof. vm_compute. reflexivity. Qed.

(** C4, where it breaks: 23 correct answers out of 40 are 57.5 percent,
    which rounds to 58; the division is done first, in binary floating
    point, the product comes out just below 57.5, and the score shown is
    57. *)
Theorem score_23_of_40_is_57 :
  run fortyQuestions initial (answerAll 23 17) = Some afterForty
  ∧ isQuizComplete afterForty = true
  ∧ correctAnswers (calculateScore fortyQuestions afterForty) = 23
  ∧ totalQuestions (calculateScore fortyQuestions afterForty) = 40
  ∧ percentage (calculateScore fortyQuestions afterForty) = Number.ofZ 57
  ∧ roundHalfUp (100 * 23) 40 = 58.
Proof. split_and!; vm_compute; reflexivity. Qed.

End TakingProperties.

(* ===================================================================== *)
(** ** Facts about the string primitives *)
(* ===================================================================== *)

Module StringFacts.
Import JS.

Lemma dropWhile_app {A} (p : A → bool) a b :
  dropWhile p (a ++ b)
  = match dropWhile p a with [] => dropWhile p b | d => d ++ b end.
Proof.
  induction a as [|x a IH]; cbn [dropWhile app]; [by destruct (dropWhile p b)|].
  destruct (p x); done.
Qed.

(** [trimEnd], read from the front. *)
Lemma trimEnd_cons c r :
  trimEnd (c :: r)
  = match trimEnd r with
    | [] => if isWhiteSpace c then [] else [c]
    | t => c :: t
    end.
Proof.
  unfold trimEnd. rewrite reverse_cons, dropWhile_app.
  destruct (dropWhile isWhiteSpace (reverse r)) as [|x d] eqn:E.
  - cbn. by destruct (isWhiteSpace c).
  - rewrite reverse_app. cbn [reverse app]. rewrite reverse_singleton.
    cbn [app]. destruct (reverse (x :: d)) eqn:E'; [|done].
    apply (f_equal length) in E'. rewrite length_reverse in E'. done.
Qed.

Lemma trimEnd_nil : trimEnd [] = [].
Proof. done. Qed.

(** A string that starts with something other than white space keeps its
    first code unit under [trim]. *)
Lemma trim_head c r :
  isWhiteSpace c = false → ∃ t, trim (c :: r) = c :: t.
Proof.
  intros Hc. unfold trim, trimStart. cbn [dropWhile]. rewrite Hc, trimEnd_cons.
  destruct (trimEnd r); rewrite ?Hc; eauto.
Qed.

Lemma trimEnd_idempotent s : trimEnd (trimEnd s) = trimEnd s.
Proof.
  unfold trimEnd. rewrite reverse_involutive. f_equal.
  generalize (reverse s). intros l. induction l as [|x l IH]; [done|].
  cbn [dropWhile]. destruct (isWhiteSpace x) eqn:E; [done|].
  cbn [dropWhile]. by rewrite E.
Qed.

Lemma trimStart_trimEnd s :
  trimStart s = s → trimStart (trimEnd s) = trimEnd s.
Proof.
  destruct s as [|c r]; [done|]. unfold trimStart. cbn [dropWhile].
  destruct (isWhiteSpace c) eqn:Hc.
  - intros H. apply (f_equal length) in H. cbn [length] in H.
    assert (∀ l : jsstring, length (dropWhile isWhiteSpace l) ≤ length l)%nat as Hle.
    { induction l as [|x l IH]; cbn; [lia|]. destruct (isWhiteSpace x); cbn; lia. }
    specialize (Hle r). lia.
  - intros _. rewrite trimEnd_cons.
    destruct (trimEnd r); rewrite ?Hc; cbn [dropWhile]; by rewrite Hc.
Qed.

Lemma trimStart_idempotent s : trimStart (trimStart s) = trimStart s.
Proof.
  unfold trimStart. induction s as [|x s IH]; [done|]. cbn [dropWhile].
  destruct (isWhiteSpace x) eqn:E; [done|]. cbn [dropWhile]. by rewrite E.
Qed.

(** Trimming twice is trimming once. *)
Lemma trim_idempotent s : trim (trim s) = trim s.
Proof.
  unfold trim. rewrite (trimStart_trimEnd (trimStart s)).
  - apply trimEnd_idempotent.
  - apply trimStart_idempotent.
Qed.

Lemma isPrefixOf_app p s : isPrefixOf p (p ++ s) = true.
Proof.
  induction p as [|a p IH]; [done|]. cbn [isPrefixOf app].
  unfold ascii_eqb. by rewrite Ascii.eqb_refl.
Qed.

Lemma toLowerCase_app a b : toLowerCase (a ++ b) = toLowerCase a ++ toLowerCase b.
Proof. apply map_app. Qed.

End StringFacts.

(* ===================================================================== *)
(** ** Properties of the text extraction *)
(* ===================================================================== *)

Module FileProcessorProperties.
Import JS Json FileProcessor QuizGenerator StringFacts MoreSamples.

Lemma endsWith_app a b : endsWith (a ++ b) b = true.
Proof. unfold endsWith. rewrite reverse_app. apply isPrefixOf_app. Qed.

(** The first code unit of a trimmed string is not white space. *)
Lemma trim_head_not_space s c r : trim s = c :: r → isWhiteSpace c = false.
Proof.
  unfold trim, trimStart.
  assert (∀ l : jsstring, match dropWhile isWhiteSpace l with
                          | [] => True
                          | x :: _ => isWhiteSpace x = false
                          end) as Hd.
  { induction l as [|x l IH]; cbn [dropWhile]; [done|].
    destruct (isWhiteSpace x) eqn:E; done. }
  specialize (Hd s). destruct (dropWhile isWhiteSpace s) as [|x l]; [done|].
  rewrite trimEnd_cons. destruct (trimEnd l).
  - rewrite Hd. by intros [= <- _].
  - by intros [= <- _].
Qed.

Lemma join_head sep p ps c r :
  p = c :: r → ∃ t, join sep (p :: ps) = c :: t.
Proof. intros ->. destruct ps; cbn; eauto. Qed.

Lemma extractTextFromFile_failure r f e :
  extractTextFromFile r f = inl e →
  e = Err EError
    (chars "Failed to extract text from file. Please check the file format and try again.").
Proof.
  unfold extractTextFromFile. repeat case_match; intros [= <-]; done.
Qed.

(** X1: the one error message.  Whatever fails while a file is read, the
    caller sees the same generic error; the "Unsupported file type" error
    raised for a file that is none of PDF, DOCX and TXT is caught inside
    and never leaves the function. *)
Theorem unsupported_type_reported_generically r f :
  str_eqb (type f) (chars "application/pdf")
  || endsWith (toLowerCase (name f)) (chars ".pdf") = false →
  str_eqb (type f)
    (chars "application/vnd.openxmlformats-officedocument.wordprocessingml.document")
  || endsWith (toLowerCase (name f)) (chars ".docx") = false →
  str_eqb (type f) (chars "text/plain")
  || endsWith (toLowerCase (name f)) (chars ".txt") = false →
  extractTextFromFile r f
  = inl (Err EError
      (chars "Failed to extract text from file. Please check the file format and try again."))
  ∧ ∀ r' f' e, extractTextFromFile r' f' = inl e →
      e = Err EError
        (chars "Failed to extract text from file. Please check the file format and try again.").
Proof.
  intros H1 H2 H3. split.
  - unfold extractTextFromFile. by rewrite H1, H2, H3.
  - intros r' f' e. apply extractTextFromFile_failure.
Qed.

Lemma unsupported_type_reported_generically_witness :
  extractTextFromFile sampleReaders imageFile
  = inl (Err EError
      (chars "Failed to extract text from file. Please check the file format and try again.")).
Proof.
  apply (unsupported_type_reported_generically sampleReaders imageFile);
    reflexivity.
Defined.

(** X2: what is extracted from a DOCX or a text file comes back trimmed:
    for a file that is not taken for a PDF, a successful extraction has no
    white space at either end. *)
Theorem extracted_text_is_trimmed r f text :
  str_eqb (type f) (chars "application/pdf")
  || endsWith (toLowerCase (name f)) (chars ".pdf") = false →
  extractTextFromFile r f = inr text →
  trim text = text.
Proof.
  intros Hpdf. unfold extractTextFromFile. rewrite Hpdf.
  unfold extractTextFromDOCX, extractTextFromTXT.
  repeat case_match; intros [= <-]; simplify_eq; apply trim_idempotent.
Qed.

Lemma extracted_text_is_trimmed_witness :
  trim (chars "Body text") = chars "Body text".
Proof.
  apply (extracted_text_is_trimmed sampleReaders docxFile (chars "Body text"));
    reflexivity.
Defined.

Lemma pdf_text_never_blank r f text :
  extractTextFromPDF r f = inr text → nonEmpty (trim text) = true.
Proof.
  unfold extractTextFromPDF. destruct (pdfItems r f) as [e|pages]; [done|].
  set (pageTexts := omap _ pages).
  assert (Forall (λ p : jsstring, ∃ c t, p = c :: t ∧ isWhiteSpace c = false)
            pageTexts) as Hpages.
  { subst pageTexts. apply Forall_forall. intros p [items [_ Hp]]%list_elem_of_omap.
    destruct (nonEmpty (trim _)) eqn:Hne; [|done]. injection Hp as <-.
    destruct (trim _) as [|c t] eqn:Ht; [done|].
    exists c, t. split; [done|]. by eapply trim_head_not_space. }
  destruct pageTexts as [|p ps].
  - intros [= <-]. reflexivity.
  - apply Forall_cons in Hpages as [(c & t & Hp & Hc) _].
    destruct (join_head [newline; newline] p ps c t Hp) as (t' & ->).
    cbn [nonEmpty]. intros [= <-].
    destruct (trim_head c t' Hc) as (t'' & ->). done.
Qed.

(** X3: a PDF never comes back blank.  For a file taken for a PDF, a
    successful extraction has something other than white space in it (the
    page texts, or the "No readable text" notice), so [generateQuiz] never
    answers a PDF with "No text could be extracted from the file". *)
Theorem pdf_never_reports_no_text w i f :
  inputType i = file →
  selectedFile i = Some f →
  str_eqb (type f) (chars "application/pdf")
  || endsWith (toLowerCase (name f)) (chars ".pdf") = true →
  (∀ text, extractTextFromFile (readers w) f = inr text →
           nonEmpty (trim text) = true)
  ∧ contentOf w i ≠ inl (error "No text could be extracted from the file").
Proof.
  intros Hi Hf Hpdf.
  assert (∀ text, extractTextFromFile (readers w) f = inr text →
                  nonEmpty (trim text) = true) as Hne.
  { intros text. unfold extractTextFromFile. rewrite Hpdf.
    destruct (extractTextFromPDF (readers w) f) as [e|t] eqn:E; [done|].
    intros [= <-]. by eapply pdf_text_never_blank. }
  split; [done|]. unfold contentOf. rewrite Hi, Hf.
  destruct (extractTextFromFile (readers w) f) as [e|text] eqn:E.
  - apply extractTextFromFile_failure in E as ->. discriminate.
  - by rewrite (Hne _ eq_refl).
Qed.

Lemma pdf_never_reports_no_text_witness :
  contentOf answeringWorld (fileInputs pdfFile)
  ≠ inl (error "No text could be extracted from the file").
Proof.
  apply (pdf_never_reports_no_text answeringWorld (fileInputs pdfFile) pdfFile);
    reflexivity.
Defined.

(** X4: the extension is compared without regard to letter case and comes
    before the MIME type of another format: a file whose name ends in
    ".pdf", in any mix of cases, is read as a PDF whatever its type. *)
Theorem pdf_extension_any_case r f base ext :
  name f = base ++ ext →
  toLowerCase ext = chars ".pdf" →
  extractTextFromFile r f
  = match extractTextFromPDF r f with
    | inr text => inr text
    | inl _ =>
        inl (Err EError
          (chars "Failed to extract text from file. Please check the file format and try again."))
    end.
Proof.
  intros Hname Hext. unfold extractTextFromFile.
  rewrite Hname, toLowerCase_app, Hext, endsWith_app, orb_true_r. done.
Qed.

Lemma pdf_extension_any_case_witness :
  extractTextFromFile sampleReaders shoutingPdf = inr (chars "Hello world").
Proof.
  rewrite (pdf_extension_any_case sampleReaders shoutingPdf (chars "NOTES") (chars ".PDF"));
    reflexivity.
Defined.

End FileProcessorProperties.

(* ===================================================================== *)
(** ** More properties of the generation request *)
(* ===================================================================== *)

Module GeneratorExtras.
Import JS Json FileProcessor QuizGenerator Reading GeneratorSamples MoreSamples.
Import GeneratorProperties.

Lemma throughLast_split c s y m :
  throughLast c s = y :: m →
  ∃ mid post, s = mid ++ c :: post ∧ (c ∉ post) ∧ y :: m = mid ++ [c].
Proof.
  revert y m. induction s as [|x s IH]; intros y m; [done|].
  cbn [throughLast]. destruct (throughLast c s) as [|y' m'] eqn:E.
  - destruct (lit c x) eqn:L; [|done]. apply lit_true in L as ->.
    intros [= <- <-]. exists [], s. split_and!; [done| |done].
    by apply throughLast_nil.
  - intros [= <- <-]. destruct (IH _ _ eq_refl) as (mid & post & -> & Hpost & Hm).
    exists (x :: mid), post. split_and!; [done..|]. cbn [app]. by rewrite Hm.
Qed.

Lemma matchFrom_arrayPattern_no_open i s :
  ("["%char ∉ s) → matchFrom arrayPattern i s = None.
Proof.
  revert i. induction s as [|c s IH]; intros i Hs; [done|].
  apply not_elem_of_cons in Hs as [Hc Hs].
  cbn [matchFrom]. rewrite arrayPattern_here.
  assert (lit "[" c = false) as -> by by apply lit_false.
  by apply IH.
Qed.

(** X5: what the extraction returns on any text: a match exists exactly
    when some closing bracket follows the first opening bracket, and it is
    then the span from that first opening bracket through the last closing
    bracket of the text. *)
Theorem jsonMatch_first_open_to_last_close text m :
  jsonMatch text = Some m ↔
  ∃ pre mid post,
    text = pre ++ "["%char :: mid ++ "]"%char :: post
    ∧ ("["%char ∉ pre) ∧ ("]"%char ∉ post)
    ∧ m = "["%char :: mid ++ ["]"%char].
Proof.
  unfold jsonMatch, match_. split.
  - destruct (decide ("["%char ∈ text)) as [Hin|Hout].
    + apply list_elem_of_split_l in Hin as (pre & s & -> & Hpre).
      rewrite matchFrom_arrayPattern by done.
      destruct (throughLast "]" s) as [|y m'] eqn:E; [done|].
      intros [= <-]. destruct (throughLast_split _ _ _ _ E)
        as (mid & post & -> & Hpost & ->).
      by exists pre, mid, post.
    + by rewrite matchFrom_arrayPattern_no_open.
  - intros (pre & mid & post & -> & Hpre & Hpost & ->).
    rewrite matchFrom_arrayPattern by done. rewrite throughLast_close.
    apply throughLast_nil in Hpost as ->. by destruct mid.
Qed.

Lemma superficial_object q :
  superficial q = true →
  ∃ fields items, q = Obj fields
    ∧ lookupField (chars "options") fields = Arr items ∧ length items = 4%nat
    ∧ typeof (lookupField (chars "correctAnswerIndex") fields) = TNumber
    ∧ truthy (lookupField (chars "question") fields) = true
    ∧ truthy (lookupField (chars "hint") fields) = true.
Proof.
  unfold superficial. destruct q as [| |b|n|s|items|fields]; try done.
  cbn [getPropOpt]. intros H.
  apply andb_prop in H as [H Hhint]. apply andb_prop in H as [H Hnum].
  apply andb_prop in H as [Hq Hopt].
  destruct (lookupField (chars "options") fields)
    as [| |?|?|?|items|?] eqn:Eo; try done.
  exists fields, items.
  split_and!; [done | done | by apply Nat.eqb_eq | | done | done].
  unfold is_number in Hnum. by destruct (typeof _).
Qed.

Lemma parseGenerated_nonempty w generatedText questions :
  parseGenerated w generatedText = inr questions → questions ≠ [].
Proof.
  unfold parseGenerated.
  destruct (truthy generatedText); [|done]. cbn [negb].
  destruct generatedText as [| |?|?|text|?|?]; try done.
  destruct (jsonMatch text) as [m|]; [|done].
  destruct (JSON_parse w m) as [e|parsed]; [done|].
  unfold validateQuestions. destruct parsed as [| |?|?|?|[|q0 qs]|?]; try done.
  destruct (every isValidQuestion (q0 :: qs)) as [e|[|]]; try done.
  by intros [= <-].
Qed.

(** X6: what the component may rely on once a response has passed: the
    generated text was a non-empty string with a bracketed span in it, that
    span parsed to the array handed over, the array is not empty, and each
    of its elements is an object with an array of exactly four options, a
    number for the correct-answer index, and a truthy question and hint. *)
Theorem parseGenerated_accepts_only_checked w generatedText questions :
  parseGenerated w generatedText = inr questions →
  questions ≠ []
  ∧ (∃ text m, generatedText = Str text ∧ text ≠ []
       ∧ jsonMatch text = Some m ∧ JSON_parse w m = inr (Arr questions))
  ∧ Forall (λ q, ∃ fields items, q = Obj fields
       ∧ lookupField (chars "options") fields = Arr items ∧ length items = 4%nat
       ∧ typeof (lookupField (chars "correctAnswerIndex") fields) = TNumber
       ∧ truthy (lookupField (chars "question") fields) = true
       ∧ truthy (lookupField (chars "hint") fields) = true) questions.
Proof.
  unfold parseGenerated.
  destruct (truthy generatedText) eqn:Ht; [|done]. cbn [negb].
  destruct generatedText as [| |?|?|text|?|?]; try done.
  destruct (jsonMatch text) as [m|] eqn:Hm; [|done].
  destruct (JSON_parse w m) as [e|parsed] eqn:Hp; [done|].
  unfold validateQuestions. destruct parsed as [| |?|?|?|[|q0 qs]|?]; try done.
  destruct (every isValidQuestion (q0 :: qs)) as [e|[|]] eqn:He; try done.
  intros [= <-]. split_and!.
  - done.
  - exists text, m. split_and!; try done. by destruct text.
  - apply every_accepts in He. eapply Forall_impl; [done|].
    apply superficial_object.
Qed.

Lemma parseGenerated_accepts_only_checked_witness :
  [sampleQuestion 2] ≠ [].
Proof.
  apply (parseGenerated_accepts_only_checked answeringWorld
           (Str (chars "Here you go: [...]")) [sampleQuestion 2]).
  reflexivity.
Defined.

(** X7: a generation that succeeds, in full: the processing toast, the
    generating toast and the success toast with the number of questions are
    shown in this order, exactly one request is sent, the questions are
    handed over exactly once, nothing is logged as an error and
    [isGenerating] is false again. *)
Theorem generateQuiz_success_effects w i st content response questions :
  isReadyToGenerate i = true →
  contentOf w i = inr content →
  fetch w (requestFor i content) = inr response →
  questionsOf w response = inr questions →
  generateQuiz w i st
  = (inr tt,
     {| isGenerating := false;
        toasts := toasts st
          ++ [processingToast i; generatingToast; successToast questions];
        fetches := fetches st ++ [requestFor i content];
        generated := generated st ++ [questions];
        consoleErrors := consoleErrors st |}).
Proof.
  intros Hready Hc Hf Hq. run_generateQuiz. rewrite Hready, Hc.
  cbn [negb fst snd isGenerating toasts fetches generated consoleErrors].
  rewrite Hf, Hq.
  cbn [negb fst snd isGenerating toasts fetches generated consoleErrors].
  by rewrite <- !app_assoc.
Qed.

Lemma generateQuiz_success_effects_witness :
  generated (snd (generateQuiz answeringWorld webInputs initial))
  = [[sampleQuestion 2]].
Proof.
  rewrite (generateQuiz_success_effects answeringWorld webInputs initial
             (chars "Website: https://example.org",
              chars "Web Content: https://example.org")
             (responseAround (chars "Here you go: [...]"))
             [sampleQuestion 2]); reflexivity.
Defined.



(** A generation that fails hands nothing over and ends with the flag
    down. *)
Lemma generateQuiz_failure w i st e :
  isReadyToGenerate i = true →
  outcome w i = inl e →
  fst (generateQuiz w i st) = inr tt
  ∧ isGenerating (snd (generateQuiz w i st)) = false
  ∧ generated (snd (generateQuiz w i st)) = generated st
  ∧ last (toasts (snd (generateQuiz w i st))) = Some (generationFailed e).
Proof.
  intros Hready Ho. run_generateQuiz. rewrite Hready.
  destruct (contentOf w i) as [e1|content];
    cbn [negb fst snd isGenerating toasts fetches generated consoleErrors].
  { injection Ho as ->. by rewrite !last_snoc. }
  destruct (fetch w (requestFor i content)) as [e2|response];
    cbn [negb fst snd isGenerating toasts fetches generated consoleErrors].
  { injection Ho as ->. by rewrite !last_snoc. }
  destruct (questionsOf w response) as [e3|qs'];
    cbn [negb fst snd isGenerating toasts fetches generated consoleErrors];
    [|done].
  injection Ho as ->. by rewrite !last_snoc.
Qed.

Lemma outcome_questions_nonempty w i questions :
  outcome w i = inr questions → questions ≠ [].
Proof.
  unfold outcome, questionsOf.
  destruct (contentOf w i) as [?|content]; [done|].
  destruct (fetch w (requestFor i content)) as [?|response]; [done|].
  destruct (ok response); [|done]. cbn [negb].
  destruct (json response) as [?|data]; [done|].
  destruct (generatedTextOf data) as [?|text]; [done|].
  apply parseGenerated_nonempty.
Qed.

(** X9: the page follows the generation.  With the page's handler as
    [onQuizGenerated], a generation that fails leaves the page where it
    was, on the generator screen with its list of questions untouched; one
    that succeeds puts it on the quiz screen with the questions that
    passed, of which there is at least one. *)
Theorem page_follows_generation w i page :
  isReadyToGenerate i = true →
  match outcome w i with
  | inl _ =>
      Index.deliver (generated (snd (generateQuiz w i initial))) page = page
  | inr questions =>
      Index.deliver (generated (snd (generateQuiz w i initial))) page
      = {| Index.appState := Index.taking; Index.quizQuestions := questions |}
      ∧ questions ≠ []
  end.
Proof.
  intros Hready. destruct (outcome w i) as [e|questions] eqn:Ho.
  - destruct (generateQuiz_failure w i initial e Hready Ho) as (_ & _ & -> & _).
    done.
  - destruct (generateQuiz_success w i initial questions Hready Ho) as (_ & _ & ->).
    split; [done|]. by eapply outcome_questions_nonempty.
Qed.

Lemma page_follows_generation_witness :
  Index.deliver (generated (snd (generateQuiz failingWorld webInputs initial)))
    Index.initial = Index.initial.
Proof.
  apply (page_follows_generation failingWorld webInputs Index.initial).
  reflexivity.
Defined.

(** X25: a null among the questions.  When the parsed array has a
    [null] element and every element before it passes the check, the
    validation does not end with the invalid-format error: reading the
    question of [null] throws a TypeError, whatever comes after it in the
    array. *)
Theorem null_question_raises_type_error good rest :
  Forall (λ q, superficial q = true) good →
  ∃ message,
    validateQuestions (Arr (good ++ Null :: rest))
    = inl (Err ETypeError message)
    ∧ validateQuestions (Arr (good ++ Null :: rest))
      ≠ inl (error "Generated questions have invalid format").
Proof.
  intros Hgood.
  assert (every isValidQuestion (good ++ Null :: rest)
          = inl (Err ETypeError (chars "Cannot read properties of null or undefined")))
    as Hevery.
  { induction Hgood as [|q good Hq _ IH]; [done|].
    cbn [app every]. rewrite isValidQuestion_superficial, Hq.
    destruct (nullish q); [by destruct q|]. exact IH. }
  eexists. unfold validateQuestions.
  destruct (good ++ Null :: rest) as [|q0 qs] eqn:E;
    [by destruct good|].
  rewrite Hevery. split; [done|discriminate].
Qed.

Lemma null_question_raises_type_error_witness :
  ∃ message,
    validateQuestions (Arr ([sampleQuestion 2] ++ Null :: [sampleQuestion 1]))
    = inl (Err ETypeError message)
    ∧ validateQuestions (Arr ([sampleQuestion 2] ++ Null :: [sampleQuestion 1]))
      ≠ inl (error "Generated questions have invalid format").
Proof.
  apply (null_question_raises_type_error [sampleQuestion 2] [sampleQuestion 1]).
  by repeat constructor.
Defined.

End GeneratorExtras.

(* ===================================================================== *)
(** ** More properties of quiz taking *)
(* ===================================================================== *)

Module TakingExtras.
Import JS QuizTaking Reading TakingSamples TakingSessions TakingProperties.

Lemma at_Some {A} (l : list A) i x :
  at_ l i = Some x → 0 ≤ i < Z.of_nat (length l).
Proof.
  unfold at_. destruct (Z.ltb_spec i 0) as [Hneg|Hpos]; [done|]. intros Hl.
  apply lookup_lt_Some in Hl. lia.
Qed.

(** Once the quiz is complete only a left-over timer can still run, and it
    touches neither the answers nor the credits nor the hints. *)
Lemma step_after_complete questions st ev st' :
  isQuizComplete st = true →
  step questions st ev = Some st' →
  isQuizComplete st' = true
  ∧ userAnswers st' = userAnswers st
  ∧ credits st' = credits st
  ∧ usedHints st' = usedHints st.
Proof.
  intros Hc H. destruct ev; unfold step, questionShown in H; rewrite ?Hc in H;
    cbn [negb andb] in H; try done.
  - by destruct (currentQuestion questions st).
  - destruct (timers st) as [|t ts]; [done|]. injection H as <-.
    unfold advance, complete, moveBy, removeTimer.
    destruct (capturedIsLast t); cbn; by rewrite ?Hc.
Qed.

(** X10: a completed quiz is final.  After [isQuizComplete] is set nothing
    that can still happen unsets it or changes the recorded answers, the
    credits or the used hints, so the score on the result screen stays as
    it is. *)
Theorem completed_quiz_is_final questions evs st st' :
  isQuizComplete st = true →
  run questions st evs = Some st' →
  isQuizComplete st' = true
  ∧ userAnswers st' = userAnswers st
  ∧ calculateScore questions st' = calculateScore questions st
  ∧ credits st' = credits st
  ∧ usedHints st' = usedHints st.
Proof.
  revert st. induction evs as [|ev evs IH]; intros st Hc Hrun.
  - by injection Hrun as <-.
  - cbn [run] in Hrun.
    destruct (step questions st ev) as [st1|] eqn:Hstep; [|done]. cbn in Hrun.
    destruct (step_after_complete _ _ _ _ Hc Hstep) as (Hc1 & Ha & Hcr & Hu).
    destruct (IH _ Hc1 Hrun) as (? & Ha' & Hs & ? & ?).
    split_and!; [done| |  |congruence..].
    + by rewrite Ha', Ha.
    + rewrite Hs. unfold calculateScore. by rewrite Ha.
Qed.

Lemma completed_quiz_is_final_witness :
  userAnswers (default initial (run oneQuestion completedEarly [TimerFires]))
  = userAnswers completedEarly
  ∧ calculateScore oneQuestion
      (default initial (run oneQuestion completedEarly [TimerFires]))
    = calculateScore oneQuestion completedEarly.
Proof.
  pose proof (completed_quiz_is_final oneQuestion [TimerFires] completedEarly
                (default initial (run oneQuestion completedEarly [TimerFires]))
                eq_refl eq_refl) as (_ & Ha & Hs & _).
  exact (conj Ha Hs).
Defined.

Lemma answerInRange_mono questions st st' a :
  usedHints st ⊆ usedHints st' →
  answerInRange questions st a → answerInRange questions st' a.
Proof.
  intros Hsub (q & Hq & Hsel & Hcor & Hhint). exists q.
  do 3 (split; [done|]). intros Hu. apply Hsub. by apply Hhint.
Qed.

(** What every event keeps: a non-negative index, a selection that is an
    option of the question shown, and recorded answers that are in range
    and rightly marked. *)
Lemma step_keeps_range questions st ev st' :
  step questions st ev = Some st' →
  0 ≤ currentQuestionIndex st →
  selectionInRange questions st →
  Forall (answerInRange questions st) (userAnswers st) →
  0 ≤ currentQuestionIndex st'
  ∧ selectionInRange questions st'
  ∧ Forall (answerInRange questions st') (userAnswers st').
Proof.
  intros Hstep Hidx Hsel Hans. destruct ev.
  - (* an option is clicked *)
    unfold step in Hstep.
    destruct (currentQuestion questions st) as [q|] eqn:Hq; [|done]. cbn in Hstep.
    destruct (questionShown questions st && (0 <=? optionIndex)
              && (optionIndex <? Z.of_nat (length (options q)))
              && negb (showAnswer st || bool_decide (is_Some (hasAnswered st))))
      eqn:Hen; [|done].
    injection Hstep as <-.
    repeat (apply andb_prop in Hen as [Hen ?]).
    unfold handleOptionSelect. destruct (showAnswer st); [done|].
    split_and!; [done| |exact Hans].
    intros i [= <-]. exists q. split; [done|]. lia.
  - (* Next *)
    unfold step in Hstep.
    destruct (questionShown questions st && _); [|done].
    unfold handleNextQuestion in Hstep.
    destruct (selectedOption st) as [selected|] eqn:Hs,
             (hasAnswered st) as [a|] eqn:Ha.
    + injection Hstep as <-. unfold advance, complete, moveBy.
      destruct (isLastQuestion questions st); cbn.
      * split_and!; [done|exact Hsel|exact Hans].
      * split_and!; [lia|by intros i|exact Hans].
    + destruct (Hsel _ Hs) as (q & Hq & Hrange).
      rewrite Hq in Hstep. cbn in Hstep. injection Hstep as <-. cbn.
      split_and!; [done| |].
      * intros i Hi. exists q. split; [done|]. cbn in Hi. by simplify_eq.
      * apply Forall_app. split; [exact Hans|]. apply Forall_singleton.
        exists q. cbn. do 3 (split; [done|]). by intros ?%bool_decide_eq_true.
    + injection Hstep as <-. unfold advance, complete, moveBy.
      destruct (isLastQuestion questions st); cbn.
      * split_and!; [done|exact Hsel|exact Hans].
      * split_and!; [lia|by intros i|exact Hans].
    + by injection Hstep as <-.
  - (* Previous *)
    unfold step in Hstep.
    destruct (questionShown questions st && _); [|done].
    injection Hstep as <-. unfold handlePreviousQuestion, moveBy.
    destruct (Z.ltb_spec 0 (currentQuestionIndex st)); cbn; [|done].
    split_and!; [lia|by intros i|exact Hans].
  - (* Hint *)
    destruct (step_hint _ _ _ _ Hstep)
      as [(Hev & _) | (_ & _ & _ & _ & Hu)]; [done|].
    unfold step in Hstep.
    destruct (questionShown questions st && canUseHint st); [|done].
    unfold handleUseHint in Hstep.
    destruct (negb (canUseHint st)); [by injection Hstep as <-|].
    destruct (currentQuestion questions st) as [q|] eqn:Hq; [|done].
    cbn in Hstep. injection Hstep as <-. cbn.
    split_and!; [done|exact Hsel|].
    eapply Forall_impl; [exact Hans|]. intros a. apply answerInRange_mono. cbn.
    set_solver.
  - (* the timer *)
    unfold step in Hstep. destruct (timers st) as [|t ts]; [done|].
    injection Hstep as <-. unfold advance, complete, moveBy, removeTimer.
    destruct (capturedIsLast t); cbn.
    + split_and!; [done|exact Hsel|exact Hans].
    + split_and!; [lia|by intros i|exact Hans].
Qed.

Lemma run_keeps_range questions evs st0 st :
  run questions st0 evs = Some st →
  0 ≤ currentQuestionIndex st0 →
  selectionInRange questions st0 →
  Forall (answerInRange questions st0) (userAnswers st0) →
  0 ≤ currentQuestionIndex st
  ∧ selectionInRange questions st
  ∧ Forall (answerInRange questions st) (userAnswers st).
Proof.
  revert st0. induction evs as [|ev evs IH]; intros st0 Hrun H0 H1 H2.
  - by injection Hrun as <-.
  - cbn [run] in Hrun.
    destruct (step questions st0 ev) as [st1|] eqn:Hstep; [|done].
    cbn in Hrun.
    destruct (step_keeps_range _ _ _ _ Hstep H0 H1 H2) as (? & ? & ?).
    by apply (IH st1).
Qed.

(** X11: answers in range.  In every state a session can reach, the index
    of the current question is not negative, a selected option is one of
    the options of the question on display, and every recorded answer is
    for a question of the quiz and one of that question's options, is
    marked correct exactly when that option is the right one, and carries
    the hint flag only if its question is among the used hints. *)
Theorem recorded_answers_in_range questions evs st :
  run questions initial evs = Some st →
  0 ≤ currentQuestionIndex st
  ∧ selectionInRange questions st
  ∧ Forall (answerInRange questions st) (userAnswers st).
Proof.
  intros Hrun.
  apply (run_keeps_range _ _ _ _ Hrun); [done|by intros i|constructor].
Qed.

Lemma recorded_answers_in_range_witness :
  Forall (answerInRange sampleQuiz afterSampleSession)
    (userAnswers afterSampleSession).
Proof.
  apply (recorded_answers_in_range sampleQuiz sampleSession afterSampleSession).
  reflexivity.
Defined.

Lemma reachable_answer_count questions evs st :
  run questions initial evs = Some st →
  (length (userAnswers st) ≤ length questions)%nat.
Proof.
  intros Hrun.
  destruct (answers_along_run _ _ _ _ Hrun) as (Hnd & _); [constructor|].
  destruct (run_keeps_range _ _ _ _ Hrun) as (_ & _ & Hans);
    [done|by intros i|constructor|].
  rewrite <- (length_fmap questionIndex).
  rewrite <- (Nat2Z.id (length questions)), <- (length_seqZ 0).
  apply submseteq_length, NoDup_submseteq; [done|].
  intros i [a [-> Ha]]%list_elem_of_fmap.
  rewrite Forall_forall in Hans. destruct (Hans _ Ha) as (q & Hq & _).
  apply at_Some in Hq. apply elem_of_seqZ. lia.
Qed.

(** X12: the score is within bounds.  In every state a session can reach
    there are at most as many recorded answers as questions, so the number
    of correct answers lies between zero and the number of questions. *)
Theorem score_within_bounds questions evs st :
  run questions initial evs = Some st →
  (length (userAnswers st) ≤ length questions)%nat
  ∧ 0 ≤ correctAnswers (calculateScore questions st)
      ≤ totalQuestions (calculateScore questions st).
Proof.
  intros Hrun. pose proof (reachable_answer_count _ _ _ Hrun) as Hlen.
  split; [done|]. cbn [calculateScore correctAnswers totalQuestions].
  pose proof (length_filter (λ a, isCorrect a = true) (userAnswers st)). lia.
Qed.

Lemma score_within_bounds_witness :
  0 ≤ correctAnswers (calculateScore sampleQuiz afterSampleSession)
    ≤ totalQuestions (calculateScore sampleQuiz afterSampleSession).
Proof.
  apply (score_within_bounds sampleQuiz sampleSession afterSampleSession).
  reflexivity.
Defined.

Lemma same_eq x y : Number.same x y = true → x = y.
Proof.
  destruct x as [s|s| |s m e], y as [s'|s'| |s' m' e']; cbn; try done.
  - by intros ->%Bool.eqb_prop.
  - by intros ->%Bool.eqb_prop.
  - intros H. apply andb_prop in H as [H He]. apply andb_prop in H as [Hs Hm].
    apply Bool.eqb_prop in Hs as ->. apply Pos.eqb_eq in Hm as ->.
    by apply Z.eqb_eq in He as ->.
Qed.

Lemma percentageOf_exact (n m : nat) :
  (0 < m < 40)%nat → (n ≤ m)%nat →
  percentageOf (Z.of_nat n) (Z.of_nat m)
  = Number.ofZ (roundHalfUp (100 * Z.of_nat n) (Z.of_nat m)).
Proof.
  intros Hm Hn. pose proof percentage_exact_below_forty as H.
  rewrite forallb_forall in H.
  assert (In m (seq 1 39)) as Him by (apply in_seq; lia).
  specialize (H m Him). cbv beta in H. rewrite forallb_forall in H.
  assert (In n (seq 0 (S m))) as Hin by (apply in_seq; lia).
  by apply same_eq, H.
Qed.

(** X13: the percentage of a short quiz is exact.  For a quiz of fewer
    than forty questions, in every state a session can reach, the
    percentage computed in floating point is the half-up rounding of the
    exact value of 100 times correct over total. *)
Theorem percentage_exact_for_short_quiz questions evs st :
  run questions initial evs = Some st →
  (0 < length questions < 40)%nat →
  percentage (calculateScore questions st)
  = Number.ofZ (roundHalfUp
                  (100 * correctAnswers (calculateScore questions st))
                  (totalQuestions (calculateScore questions st))).
Proof.
  intros Hrun Hm. cbn [calculateScore correctAnswers totalQuestions percentage].
  apply percentageOf_exact; [done|].
  pose proof (reachable_answer_count _ _ _ Hrun).
  pose proof (length_filter (λ a, isCorrect a = true) (userAnswers st)). lia.
Qed.

Lemma percentage_exact_for_short_quiz_witness :
  percentage (calculateScore sampleQuiz afterSampleSession) = Number.ofZ 50.
Proof.
  rewrite (percentage_exact_for_short_quiz sampleQuiz sampleSession
             afterSampleSession); [reflexivity|reflexivity|].
  cbn. lia.
Defined.

(** X14: never more than five hints.  However long the quiz and the
    session, at most five questions get a hint: each hint costs two of the
    ten credits and none is ever given back. *)
Theorem at_most_five_hints questions evs st :
  run questions initial evs = Some st →
  (size (usedHints st) ≤ 5)%nat
  ∧ (length (hintsTaken questions initial evs) ≤ 5)%nat.
Proof.
  intros Hrun.
  destruct (hints_along_run _ _ _ _ Hrun) as (Hset & Hnd & _ & Hcred & Hpos).
  cbn [credits usedHints initial] in Hset, Hcred, Hpos.
  assert (size (usedHints st) = length (hintsTaken questions initial evs)) as ->.
  { rewrite Hset, (left_id_L ∅ (∪)). by apply size_list_to_set. }
  lia.
Qed.

Lemma at_most_five_hints_witness :
  (size (usedHints afterSampleSession) ≤ 5)%nat.
Proof.
  apply (at_most_five_hints sampleQuiz sampleSession afterSampleSession).
  reflexivity.
Defined.

Lemma at_of_nat {A} (l : list A) (k : nat) : at_ l (Z.of_nat k) = l !! k.
Proof.
  unfold at_. destruct (Z.ltb_spec (Z.of_nat k) 0); [lia|]. by rewrite Nat2Z.id.
Qed.

Lemma find_none_below k (answers : list UserAnswer) :
  Forall (λ a, questionIndex a < k) answers →
  find (λ a, questionIndex a =? k) answers = None.
Proof.
  induction 1 as [|a answers Ha _ IH]; [done|]. cbn [find].
  destruct (Z.eqb_spec (questionIndex a) k); [lia|done].
Qed.

(** One round of a patient user on question [k]. *)
Lemma patient_round questions k q c answers shown :
  questions !! k = Some q →
  0 ≤ c < Z.of_nat (length (options q)) →
  Forall (λ a, questionIndex a < Z.of_nat k) answers →
  ∃ shown',
    run questions (between k answers shown) (patientRound c)
    = Some (if (S k =? length questions)%nat
            then complete
                   {| currentQuestionIndex := Z.of_nat k;
                      userAnswers := answers ++ answersFrom (Z.of_nat k) [q] [c];
                      selectedOption := Some c; showAnswer := true;
                      credits := 10; isQuizComplete := false; usedHints := ∅;
                      timers := []; toasts := shown' |}
            else between (S k) (answers ++ answersFrom (Z.of_nat k) [q] [c])
                   shown')
    ∧ staysInRange questions (between k answers shown) (patientRound c).
Proof.
  intros Hq Hc Hans. pose proof (lookup_lt_Some _ _ _ Hq) as Hk.
  set (a := {| questionIndex := Z.of_nat k; selectedAnswer := c;
               isCorrect := c =? correctAnswerIndex q; usedHint := false |}).
  exists (shown ++ [feedback q (isCorrect a)]).
  set (st1 := {| currentQuestionIndex := Z.of_nat k; userAnswers := answers;
                 selectedOption := Some c; showAnswer := false; credits := 10;
                 isQuizComplete := false; usedHints := ∅; timers := [];
                 toasts := shown |}).
  set (st2 := {| currentQuestionIndex := Z.of_nat k;
                 userAnswers := answers ++ [a];
                 selectedOption := Some c; showAnswer := true; credits := 10;
                 isQuizComplete := false; usedHints := ∅;
                 timers := [{| delay := autoAdvanceDelay;
                               capturedIsLast :=
                                 Z.of_nat k =? Z.of_nat (length questions) - 1 |}];
                 toasts := shown ++ [feedback q (isCorrect a)] |}).
  assert (step questions (between k answers shown) (ClickOption c) = Some st1)
    as Hstep1.
  { unfold step, questionShown, currentQuestion, hasAnswered, between.
    cbn [currentQuestionIndex userAnswers isQuizComplete showAnswer].
    rewrite at_of_nat, Hq, (find_none_below _ _ Hans). cbn [mbind option_bind].
    rewrite bool_decide_true by eauto.
    rewrite (bool_decide_false (is_Some None)) by by intros [? ?].
    destruct (Z.leb_spec 0 c); [|lia].
    destruct (Z.ltb_spec c (Z.of_nat (length (options q)))); [|lia].
    reflexivity. }
  assert (step questions st1 ClickNext = Some st2) as Hstep2.
  { unfold step, questionShown, handleNextQuestion, currentQuestion,
      hasAnswered, isLastQuestion, newAnswer, st1.
    cbn [currentQuestionIndex userAnswers isQuizComplete showAnswer
         selectedOption usedHints].
    rewrite at_of_nat, Hq, (find_none_below _ _ Hans).
    rewrite bool_decide_true by eauto.
    rewrite (bool_decide_false (Some c = None)) by done.
    rewrite (bool_decide_false (Z.of_nat k ∈ (∅ : gset Z))) by set_solver.
    reflexivity. }
  unfold patientRound. cbn [run staysInRange].
  rewrite Hstep1. cbn [mbind option_bind].
  rewrite Hstep2. cbn [mbind option_bind].
  unfold step, st2, st1, advance, removeTimer, complete, moveBy, between.
  cbn [timers capturedIsLast currentQuestionIndex userAnswers selectedOption
       showAnswer credits isQuizComplete usedHints toasts tail answersFrom
       mbind option_bind].
  destruct (Z.eqb_spec (Z.of_nat k) (Z.of_nat (length questions) - 1)),
           (Nat.eqb_spec (S k) (length questions)); try lia.
  - cbn [currentQuestionIndex]. split; [reflexivity|]. split_and!; try done; lia.
  - cbn [currentQuestionIndex]. split; [do 2 f_equal; lia|].
    split_and!; try done; lia.
Qed.

Lemma staysInRange_app questions st evs1 evs2 st' :
  staysInRange questions st evs1 →
  run questions st evs1 = Some st' →
  staysInRange questions st' evs2 →
  staysInRange questions st (evs1 ++ evs2).
Proof.
  revert st. induction evs1 as [|ev evs1 IH]; intros st H1 Hrun H2.
  - by injection Hrun as ->.
  - cbn [app staysInRange run] in *.
    destruct (step questions st ev) as [st1|]; [|done]. cbn in Hrun.
    destruct H1 as [? H1]. split; [done|]. by apply IH.
Qed.

Lemma patient_rest questions rest :
  ∀ choices k answers shown,
    drop k questions = rest → rest ≠ [] →
    Forall2 (λ q c, 0 ≤ c < Z.of_nat (length (options q))) rest choices →
    Forall (λ a, questionIndex a < Z.of_nat k) answers →
    ∃ st, run questions (between k answers shown) (patientSession choices)
          = Some st
      ∧ isQuizComplete st = true
      ∧ currentQuestionIndex st = Z.of_nat (length questions) - 1
      ∧ userAnswers st = answers ++ answersFrom (Z.of_nat k) rest choices
      ∧ timers st = [] ∧ credits st = 10 ∧ usedHints st = ∅
      ∧ staysInRange questions (between k answers shown)
          (patientSession choices).
Proof.
  induction rest as [|q rest IH]; intros choices k answers shown Hdrop Hne Hall Hans;
    [done|].
  destruct choices as [|c choices]; [by apply Forall2_length in Hall|].
  apply Forall2_cons in Hall as [Hc Hall].
  assert (questions !! k = Some q) as Hq.
  { rewrite <- (Nat.add_0_r k), <- lookup_drop, Hdrop. done. }
  assert (drop (S k) questions = rest) as Hdrop'.
  { replace (S k) with (k + 1)%nat by lia. by rewrite <- drop_drop, Hdrop. }
  assert (length questions = (k + S (length rest))%nat) as Hlen.
  { apply (f_equal length) in Hdrop. rewrite length_drop in Hdrop.
    cbn [length] in Hdrop. lia. }
  unfold patientSession. cbn [fmap list_fmap concat]. rewrite run_app.
  destruct (patient_round questions k q c answers shown Hq Hc Hans)
    as (shown' & Hround & Hstay). rewrite Hround. cbn [mbind option_bind].
  assert (Forall (λ a, questionIndex a < Z.of_nat (S k))
            (answers ++ answersFrom (Z.of_nat k) [q] [c])) as Hans'.
  { apply Forall_app. split.
    - eapply Forall_impl; [done|]. cbn. intros; lia.
    - apply Forall_singleton. cbn. lia. }
  destruct rest as [|q' rest'].
  - apply Forall2_nil_inv_l in Hall as ->. cbn [fmap list_fmap concat run].
    destruct (Nat.eqb_spec (S k) (length questions)); [|cbn in Hlen; lia].
    eexists. split; [done|]. cbn [complete isQuizComplete currentQuestionIndex
      userAnswers timers credits usedHints answersFrom].
    split_and!; try done; try (cbn in Hlen; lia).
  - destruct (Nat.eqb_spec (S k) (length questions)); [cbn in Hlen; lia|].
    destruct (IH choices (S k) _ shown' Hdrop' ltac:(done) Hall Hans')
      as (st & Hrun & ? & ? & Hua & ? & ? & ? & Hstay').
    exists st. split; [exact Hrun|]. split_and!; try done.
    + rewrite Hua, <- app_assoc. cbn [answersFrom app].
      by rewrite Nat2Z.inj_succ, <- Z.add_1_r.
    + by eapply staysInRange_app.
Qed.

(** X15: a patient user always finishes.  On any quiz with at least one
    question, a session that picks an option of the question on display,
    clicks Next and waits for the timer, once per question, never leaves
    the range of the questions on its way and ends on the result screen
    with the index on the last question, one answer recorded per question
    in order (each marked correct exactly when the option picked is the
    right one), no timer left and all ten credits. *)
Theorem patient_session_completes questions choices :
  questions ≠ [] →
  Forall2 (λ q c, 0 ≤ c < Z.of_nat (length (options q))) questions choices →
  ∃ st, run questions initial (patientSession choices) = Some st
    ∧ isQuizComplete st = true
    ∧ currentQuestionIndex st = Z.of_nat (length questions) - 1
    ∧ userAnswers st = answersFrom 0 questions choices
    ∧ timers st = [] ∧ credits st = 10
    ∧ staysInRange questions initial (patientSession choices).
Proof.
  intros Hne Hall.
  destruct (patient_rest questions questions choices 0 [] [] eq_refl Hne Hall)
    as (st & Hrun & ? & ? & ? & ? & ? & ? & ?); [constructor|].
  exists st. split_and!; done.
Qed.

Lemma patient_session_completes_witness :
  ∃ st, run sampleQuiz initial (patientSession [1; 0]) = Some st
    ∧ isQuizComplete st = true
    ∧ currentQuestionIndex st = Z.of_nat (length sampleQuiz) - 1
    ∧ userAnswers st = answersFrom 0 sampleQuiz [1; 0]
    ∧ timers st = [] ∧ credits st = 10
    ∧ staysInRange sampleQuiz initial (patientSession [1; 0]).
Proof.
  apply (patient_session_completes sampleQuiz [1; 0]); [done|].
  repeat constructor; cbn; lia.
Defined.

Lemma isLastQuestion_index questions st st' :
  currentQuestionIndex st' = currentQuestionIndex st →
  isLastQuestion questions st' = isLastQuestion questions st.
Proof. unfold isLastQuestion. by intros ->. Qed.

Lemma advance_in_range questions st :
  0 ≤ currentQuestionIndex st < Z.of_nat (length questions) →
  0 ≤ currentQuestionIndex (advance (isLastQuestion questions st) st)
    < Z.of_nat (length questions)
  ∧ timers (advance (isLastQuestion questions st) st) = timers st.
Proof.
  intros Hidx. unfold advance, isLastQuestion, complete, moveBy.
  destruct (Z.eqb_spec (currentQuestionIndex st) (Z.of_nat (length questions) - 1));
    cbn; split; try done; lia.
Qed.

(** One event of a calm session keeps the index in range and the timer in
    step. *)
Lemma calm_step questions st ev st' :
  step questions st ev = Some st' →
  ev = TimerFires ∨ timers st = [] →
  0 ≤ currentQuestionIndex st < Z.of_nat (length questions) →
  timerInStep questions st →
  0 ≤ currentQuestionIndex st' < Z.of_nat (length questions)
  ∧ timerInStep questions st'.
Proof.
  intros Hstep Hcalm Hidx Htimer. destruct ev.
  - (* an option *)
    destruct Hcalm as [|Ht]; [done|]. unfold step in Hstep.
    destruct (currentQuestion questions st) as [q|]; [|done]. cbn in Hstep.
    destruct (_ && _); [|done]. injection Hstep as <-.
    unfold handleOptionSelect. destruct (showAnswer st); [done|].
    split; [done|]. by left.
  - (* Next *)
    destruct Hcalm as [|Ht]; [done|]. unfold step in Hstep.
    destruct (questionShown questions st && _); [|done].
    unfold handleNextQuestion in Hstep.
    destruct (selectedOption st) as [selected|],
             (hasAnswered st) as [a|].
    + injection Hstep as <-.
      destruct (advance_in_range questions st Hidx) as [? Ht'].
      split; [done|]. left. by rewrite Ht'.
    + destruct (currentQuestion questions st) as [q|]; [|done].
      cbn in Hstep. injection Hstep as <-. cbn. split; [done|].
      right. rewrite Ht. eexists. split; [done|]. done.
    + injection Hstep as <-.
      destruct (advance_in_range questions st Hidx) as [? Ht'].
      split; [done|]. left. by rewrite Ht'.
    + by injection Hstep as <-.
  - (* Previous *)
    destruct Hcalm as [|Ht]; [done|]. unfold step in Hstep.
    destruct (questionShown questions st && _); [|done].
    injection Hstep as <-. unfold handlePreviousQuestion, moveBy.
    destruct (Z.ltb_spec 0 (currentQuestionIndex st)); cbn; [|done].
    split; [lia|]. by left.
  - (* Hint *)
    destruct Hcalm as [|Ht]; [done|]. unfold step in Hstep.
    destruct (questionShown questions st && canUseHint st); [|done].
    unfold handleUseHint in Hstep.
    destruct (negb (canUseHint st)); [by injection Hstep as <-|].
    destruct (currentQuestion questions st) as [q|]; [|done].
    cbn in Hstep. injection Hstep as <-. cbn. split; [done|]. by left.
  - (* the timer *)
    unfold step in Hstep. destruct (timers st) as [|t ts] eqn:Ht; [done|].
    injection Hstep as <-.
    destruct Htimer as [Hnil|(t' & Hone & Hcap)]; [by rewrite Ht in Hnil|].
    rewrite Ht in Hone. injection Hone as <- ->.
    rewrite Hcap.
    rewrite <- (isLastQuestion_index questions st (removeTimer st)) by done.
    destruct (advance_in_range questions (removeTimer st)) as [? Ht']; [done|].
    split; [done|]. left. rewrite Ht'. cbn. by rewrite Ht.
Qed.

Lemma calm_run questions evs st :
  calm questions st evs →
  0 ≤ currentQuestionIndex st < Z.of_nat (length questions) →
  timerInStep questions st →
  ∀ st', run questions st evs = Some st' →
    staysInRange questions st evs
    ∧ 0 ≤ currentQuestionIndex st' < Z.of_nat (length questions).
Proof.
  revert st. induction evs as [|ev evs IH]; intros st Hcalm Hidx Htimer st' Hrun.
  - by injection Hrun as <-.
  - cbn [calm run staysInRange] in *. destruct Hcalm as [Hev Hcalm].
    destruct (step questions st ev) as [st1|] eqn:Hstep; [|done]. cbn in Hrun.
    destruct (calm_step _ _ _ _ Hstep Hev Hidx Htimer) as [Hidx1 Htimer1].
    destruct (IH st1 Hcalm Hidx1 Htimer1 st' Hrun) as [? ?]. done.
Qed.

(** X24: no click during the delay, no index out of range.  On a quiz
    with at least one question, in any session in which no button is
    clicked while an auto-advance timer is pending, the index is that of a
    question of the quiz after every event. *)
Theorem calm_session_stays_in_range questions evs st :
  questions ≠ [] →
  calm questions initial evs →
  run questions initial evs = Some st →
  staysInRange questions initial evs
  ∧ 0 ≤ currentQuestionIndex st < Z.of_nat (length questions).
Proof.
  intros Hne Hcalm Hrun.
  apply (calm_run questions evs initial Hcalm); [|by left|done].
  cbn. destruct questions; [done|]. cbn [length]. lia.
Qed.

Lemma calm_session_stays_in_range_witness :
  staysInRange sampleQuiz initial sampleSession
  ∧ 0 ≤ currentQuestionIndex afterSampleSession < Z.of_nat (length sampleQuiz).
Proof.
  apply (calm_session_stays_in_range sampleQuiz sampleSession afterSampleSession).
  - done.
  - cbn. repeat split; auto.
  - reflexivity.
Defined.

End TakingExtras.

(* ===================================================================== *)
(** ** More properties of the voice conversation *)
(* ===================================================================== *)

Module VoiceExtras.
Import JS Json FileProcessor QuizGenerator Reading GeneratorSamples MoreSamples.
Import VoiceListening StringFacts.

Lemma star_digit_run ds post :
  Forall (λ c, digit c = true) ds → stopsDigits post →
  matchHere [Star digit] (ds ++ post) = Some ds.
Proof.
  intros Hds Hpost. induction Hds as [|d ds Hd _ IH].
  - destruct post as [|x post]; [done|]. cbn in *. by rewrite Hpost.
  - cbn [app]. cbn [matchHere] in *. by rewrite Hd, IH.
Qed.

Lemma digitsPattern_here s :
  matchHere digitsPattern s =
  match s with
  | c :: s' => if digit c then (c ::.) <$> matchHere [Star digit] s' else None
  | [] => None
  end.
Proof. by destruct s. Qed.

Lemma matchFrom_digits_none i s :
  Forall (λ c, digit c = false) s → matchFrom digitsPattern i s = None.
Proof.
  intros Hs. revert i. induction Hs as [|c s Hc _ IH]; intros i; [done|].
  cbn [matchFrom]. rewrite digitsPattern_here, Hc. apply IH.
Qed.

Lemma matchFrom_digits i pre d ds post :
  Forall (λ c, digit c = false) pre →
  Forall (λ c, digit c = true) (d :: ds) → stopsDigits post →
  matchFrom digitsPattern i (pre ++ (d :: ds) ++ post)
  = Some ((i + length pre)%nat, d :: ds).
Proof.
  intros Hpre Hds Hpost. revert i.
  induction Hpre as [|c pre Hc _ IH]; intros i.
  - apply Forall_cons in Hds as [Hd Hds].
    cbn [app matchFrom]. rewrite digitsPattern_here, Hd.
    rewrite (star_digit_run ds post Hds Hpost). cbn. by rewrite Nat.add_0_r.
  - cbn [app matchFrom]. rewrite digitsPattern_here, Hc, IH.
    cbn [length]. by rewrite Nat.add_succ_r.
Qed.

Lemma matchFrom_digits_nonempty i s j m :
  matchFrom digitsPattern i s = Some (j, m) → m ≠ [].
Proof.
  revert i. induction s as [|c s IH]; intros i; cbn [matchFrom];
    rewrite digitsPattern_here; [done|].
  destruct (digit c).
  - destruct (matchHere [Star digit] s); cbn; [by intros [= _ <-]|apply IH].
  - apply IH.
Qed.

Lemma questions_step_count t v :
  isProcessingRef v = false →
  conversationStepRef v = StepQuestions →
  vQuestionCount (voiceResponsesRef (processVoiceResponse t v))
  = match match_ (trim (toLowerCase t)) digitsPattern with
    | Some (_, m) => m
    | None => chars "10"
    end.
Proof.
  intros Hp Hs. unfold processVoiceResponse. rewrite Hp. cbn. by rewrite Hs.
Qed.

(** X16: how the number of questions is understood.  At the questions
    step the first run of digits in the lowered, trimmed transcript is
    stored, whatever else is said around it; a transcript without a digit,
    such as a number spelled out in words, stores "10". *)
Theorem questions_step_reads_first_digits t v :
  isProcessingRef v = false →
  conversationStepRef v = StepQuestions →
  (Forall (λ c, digit c = false) (trim (toLowerCase t)) →
   vQuestionCount (voiceResponsesRef (processVoiceResponse t v)) = chars "10")
  ∧ (∀ pre d ds post,
       trim (toLowerCase t) = pre ++ (d :: ds) ++ post →
       Forall (λ c, digit c = false) pre →
       Forall (λ c, digit c = true) (d :: ds) →
       stopsDigits post →
       vQuestionCount (voiceResponsesRef (processVoiceResponse t v)) = d :: ds).
Proof.
  intros Hp Hs. rewrite (questions_step_count t v Hp Hs). unfold match_. split.
  - intros Hnone. by rewrite matchFrom_digits_none.
  - intros pre d ds post -> Hpre Hds Hpost. by rewrite matchFrom_digits.
Qed.

Lemma questions_step_reads_first_digits_witness :
  vQuestionCount (voiceResponsesRef
     (processVoiceResponse (chars "fifteen")
        (converse [chars "the water cycle"] conversationStart)))
  = chars "10".
Proof.
  apply (questions_step_reads_first_digits (chars "fifteen")
           (converse [chars "the water cycle"] conversationStart));
    [reflexivity | reflexivity |].
  repeat constructor.
Defined.

Lemma nonEmpty_length (s : jsstring) : (0 < length s)%nat → nonEmpty s = true.
Proof. destruct s; cbn; [lia|done]. Qed.

Lemma difficultyOf_nonEmpty low : nonEmpty (difficultyOf low) = true.
Proof. unfold difficultyOf. by repeat case_match. Qed.

Lemma at_topic t v :
  isProcessingRef v = false → conversationStepRef v = StepTopic →
  (3 ≤ length (trim t))%nat →
  isProcessingRef (processVoiceResponse t v) = false
  ∧ conversationStepRef (processVoiceResponse t v) = StepQuestions
  ∧ voiceResponsesRef (processVoiceResponse t v)
    = withTopic (trim t) (voiceResponsesState v)
  ∧ voiceResponsesState (processVoiceResponse t v)
    = withTopic (trim t) (voiceResponsesState v).
Proof.
  intros Hp Hs Hlen. unfold processVoiceResponse. rewrite Hp. cbn. rewrite Hs.
  destruct (Z.ltb_spec (Z.of_nat (length (trim t))) 3); [lia|]. done.
Qed.

Lemma at_questions t v :
  isProcessingRef v = false → conversationStepRef v = StepQuestions →
  let n := match match_ (trim (toLowerCase t)) digitsPattern with
           | Some (_, m) => m
           | None => chars "10"
           end in
  isProcessingRef (processVoiceResponse t v) = false
  ∧ conversationStepRef (processVoiceResponse t v) = StepDifficulty
  ∧ voiceResponsesRef (processVoiceResponse t v)
    = withQuestionCount n (voiceResponsesState v)
  ∧ voiceResponsesState (processVoiceResponse t v)
    = withQuestionCount n (voiceResponsesState v).
Proof.
  intros Hp Hs. unfold processVoiceResponse. rewrite Hp. cbn. by rewrite Hs.
Qed.

Lemma at_difficulty t v :
  isProcessingRef v = false → conversationStepRef v = StepDifficulty →
  voiceInputComplete (processVoiceResponse t v) = true
  ∧ showVoiceModal (processVoiceResponse t v) = false
  ∧ voiceResponsesRef (processVoiceResponse t v)
    = withDifficulty (difficultyOf (trim (toLowerCase t))) (voiceResponsesState v)
  ∧ voiceResponsesState (processVoiceResponse t v)
    = withDifficulty (difficultyOf (trim (toLowerCase t))) (voiceResponsesState v).
Proof.
  intros Hp Hs. unfold processVoiceResponse. rewrite Hp. cbn. by rewrite Hs.
Qed.

(** Three answers from the start of the conversation. *)
Lemma converse_three t1 t2 t3 :
  (3 ≤ length (trim t1))%nat →
  let v := converse [t1; t2; t3] conversationStart in
  voiceInputComplete v = true ∧ showVoiceModal v = false
  ∧ voiceResponsesRef v = voiceResponsesState v
  ∧ topic (voiceResponsesState v) = trim t1
  ∧ vQuestionCount (voiceResponsesState v)
    = match match_ (trim (toLowerCase t2)) digitsPattern with
      | Some (_, m) => m
      | None => chars "10"
      end
  ∧ vDifficulty (voiceResponsesState v) = difficultyOf (trim (toLowerCase t3)).
Proof.
  intros Hlen. cbn [converse foldl].
  destruct (at_topic t1 conversationStart eq_refl eq_refl Hlen)
    as (Hp1 & Hs1 & _ & Hv1).
  destruct (at_questions t2 _ Hp1 Hs1) as (Hp2 & Hs2 & _ & Hv2).
  destruct (at_difficulty t3 _ Hp2 Hs2) as (Hc & Hm & Hr & Hv3).
  split_and!; [done|done|congruence|..]; rewrite Hv3, Hv2, Hv1; done.
Qed.

(** X17: a finished conversation enables the Generate button.  After the
    three answers, the first with at least three code units once trimmed,
    the modal is closed, the voice input is complete and the three stored
    responses are all non-empty (the topic is the trimmed first answer), so
    that with an API key and settings in place the inputs are ready to
    generate. *)
Theorem finished_conversation_is_ready t1 t2 t3 key s :
  (3 ≤ length (trim t1))%nat →
  nonEmpty key = true →
  questionCount s ≠ 0 → nonEmpty (difficulty s) = true →
  nonEmpty (questionType s) = true →
  let v := converse [t1; t2; t3] conversationStart in
  showVoiceModal v = false
  ∧ topic (voiceResponsesState v) = trim t1
  ∧ isReadyToGenerate (voiceInputsOf (Some key) s v) = true.
Proof.
  intros Hlen Hkey Hcount Hdiff Htype v.
  destruct (converse_three t1 t2 t3 Hlen) as (Hc & Hm & _ & Ht & Hn & Hd).
  fold v in Hc, Hm, Ht, Hn, Hd. split; [done|]. split; [done|].
  unfold isReadyToGenerate, voiceInputsOf.
  cbn [GEMINI_API_KEY settings inputType isVoiceInputComplete voiceResponses].
  rewrite Hkey, Hdiff, Htype, Hc, Ht, Hn, Hd, trim_idempotent.
  rewrite (nonEmpty_length (trim t1)) by lia. rewrite difficultyOf_nonEmpty.
  destruct (Z.eqb_spec (questionCount s) 0); [done|]. cbn [negb andb].
  unfold match_.
  destruct (matchFrom digitsPattern 0 (trim (toLowerCase t2))) as [[j m]|] eqn:E;
    [|done].
  apply matchFrom_digits_nonempty in E. by destruct m.
Qed.

Lemma finished_conversation_is_ready_witness :
  isReadyToGenerate
    (voiceInputsOf (Some (chars "key")) (settings webInputs)
       (converse [chars " the water cycle "; chars "5 please"; chars "easy"]
          conversationStart))
  = true.
Proof.
  apply (finished_conversation_is_ready (chars " the water cycle ")
           (chars "5 please") (chars "easy") (chars "key") (settings webInputs));
    [by apply Nat.leb_le | reflexivity | discriminate | reflexivity | reflexivity].
Defined.

Lemma heard_facts l t :
  heard l = Some t →
  trim t = t ∧ (2 ≤ length t)%nat
  ∧ t = trim (currentTranscriptRef l)
  ∧ isProcessingRef (voice l) = false
  ∧ isGeneratingQuizRef (voice l) = false.
Proof.
  unfold heard. intros Hheard.
  destruct (silenceTimeoutRef (voice l)); [|done].
  destruct (isProcessingRef (voice l)); [done|].
  destruct (isGeneratingQuizRef (voice l)); [done|].
  destruct (nonEmpty _); [|done]. cbn [negb andb] in Hheard.
  destruct (Z.leb_spec 2 (Z.of_nat (length (trim (currentTranscriptRef l)))));
    [|done].
  injection Hheard as <-.
  split_and!; [apply trim_idempotent|lia|done|done|done].
Qed.

(** X18: what the silence timer passes on.  The transcript handed to
    [processVoiceResponse] is the stored transcript trimmed: it has no
    white space at either end and at least two code units, and it is
    handed over only while no response is being processed and no quiz
    generated.  The transcript [onresult] stores is trimmed already. *)
Theorem heard_transcript_is_trimmed l t :
  heard l = Some t →
  trim t = t ∧ (2 ≤ length t)%nat
  ∧ t = trim (currentTranscriptRef l)
  ∧ isProcessingRef (voice l) = false
  ∧ isGeneratingQuizRef (voice l) = false
  ∧ ∀ results l0, isProcessingRef (voice l0) = false →
      isGeneratingQuizRef (voice l0) = false →
      trim (currentTranscriptRef (onresult results l0))
      = currentTranscriptRef (onresult results l0).
Proof.
  intros Hheard. destruct (heard_facts l t Hheard) as (? & ? & ? & ? & ?).
  split_and!; [done..|].
  intros results l0 Hp Hg. unfold onresult. rewrite Hp, Hg.
  cbn [orb currentTranscriptRef]. apply trim_idempotent.
Qed.

Lemma heard_transcript_is_trimmed_witness :
  trim (chars "hello world") = chars "hello world"
  ∧ (2 ≤ length (chars "hello world"))%nat.
Proof.
  pose proof (heard_transcript_is_trimmed
                (onresult [{| transcript := chars "hello world"; isFinal := true |}]
                   listeningStart)
                (chars "hello world") eq_refl) as (H1 & H2 & _).
  exact (conj H1 H2).
Defined.

(** X19: a topic of two code units is never taken.  The silence timer
    passes a transcript of two code units on, the topic step wants three:
    the step stays on the topic, the responses stay as they are, and
    listening is scheduled again half a second later. *)
Theorem two_unit_topic_is_not_taken l t :
  heard l = Some t →
  length t = 2%nat →
  conversationStepRef (voice l) = StepTopic →
  conversationStepRef (voice (silenceElapsed l)) = StepTopic
  ∧ conversationStep (voice (silenceElapsed l)) = conversationStep (voice l)
  ∧ voiceResponsesRef (voice (silenceElapsed l)) = voiceResponsesRef (voice l)
  ∧ voiceResponsesState (voice (silenceElapsed l)) = voiceResponsesState (voice l)
  ∧ showVoiceModal (voice (silenceElapsed l)) = showVoiceModal (voice l)
  ∧ scheduled (voice (silenceElapsed l))
    = scheduled (voice l) ++ [{| delay := 500; unlessGenerating := false |}].
Proof.
  intros Hheard Hlen Hstep.
  destruct (heard_facts l t Hheard) as (Htrim & _ & _ & Hp & _).
  unfold silenceElapsed. rewrite Hheard. cbn [voice].
  unfold processVoiceResponse. rewrite Hp. cbn. rewrite Hstep, Htrim, Hlen.
  done.
Qed.

Lemma two_unit_topic_is_not_taken_witness :
  conversationStepRef
    (voice (silenceElapsed
       (onresult [{| transcript := chars "AI"; isFinal := true |}] listeningStart)))
  = StepTopic.
Proof.
  apply (two_unit_topic_is_not_taken
           (onresult [{| transcript := chars "AI"; isFinal := true |}]
              listeningStart) (chars "AI")); reflexivity.
Defined.

End VoiceExtras.

(* ===================================================================== *)
(** ** Properties of the generation from the voice answers *)
(* ===================================================================== *)

Module VoiceGenerationProperties.
Import JS Json FileProcessor QuizGenerator Reading GeneratorSamples MoreSamples.
Import VoiceListening VoiceGeneration VoiceSamples StringFacts.
Import GeneratorProperties VoiceExtras.

Ltac run_voiceAttempt :=
  unfold voiceAttempt, tryCatchFinally, logError, mbind, M_bind, mret, M_ret,
    setIsGenerating, toast, lift, doFetch, consoleError, onQuizGenerated in *;
  cbn [negb fst snd isGenerating toasts fetches generated consoleErrors] in *.

(** One attempt: the flag ends down, exactly one request is sent, and the
    questions are handed over once or not at all. *)
Lemma voiceAttempt_effects vw topic n d st :
  isGenerating (snd (voiceAttempt vw topic n d st)) = false
  ∧ fetches (snd (voiceAttempt vw topic n d st))
    = fetches st ++ [buildVoicePrompt topic n d]
  ∧ (generated (snd (voiceAttempt vw topic n d st)) = generated st
     ∨ ∃ questions,
         generated (snd (voiceAttempt vw topic n d st))
         = generated st ++ [questions]).
Proof.
  run_voiceAttempt.
  destruct (fetch (world vw) (buildVoicePrompt topic n d)) as [e|response];
    cbn [negb fst snd isGenerating toasts fetches generated consoleErrors].
  { split_and!; [done..|by left]. }
  destruct (voiceQuestionsOf vw response) as [[e|questions] [logged|]];
    cbn [negb fst snd isGenerating toasts fetches generated consoleErrors];
    split_and!; try done; try (by left); right; by eexists.
Qed.


(** X20: a voice generation never leaves a flag up.  From a state with
    both generating flags down, whatever [generateVoiceQuiz] meets (a call
    too soon, a missing topic, a failure, a success) both flags are down
    again when it is over, at most one request was sent and the questions
    were handed over at most once. *)
Theorem voice_generation_lowers_flags vw now g :
  isGeneratingQuizRef (gvoice g) = false →
  isGenerating (effects g) = false →
  isGeneratingQuizRef (gvoice (generateVoiceQuiz vw now g)) = false
  ∧ isGenerating (effects (generateVoiceQuiz vw now g)) = false
  ∧ (length (fetches (effects (generateVoiceQuiz vw now g)))
     ≤ S (length (fetches (effects g))))%nat
  ∧ (generated (effects (generateVoiceQuiz vw now g)) = generated (effects g)
     ∨ ∃ questions,
         generated (effects (generateVoiceQuiz vw now g))
         = generated (effects g) ++ [questions]).
Proof.
  intros Hq Hg. unfold generateVoiceQuiz. rewrite Hq, Hg.
  destruct (now - lastQuizGenerationRef g <? 2000).
  { cbn. split_and!; [done|done|lia|by left]. }
  destruct (negb (nonEmpty (trim (topic (voiceResponsesRef (gvoice g)))))).
  { cbn. split_and!; [done|done|lia|by left]. }
  unfold generateVoiceQuizFrom. cbn [effects gvoice generationOver isGeneratingQuizRef].
  match goal with
  | |- context [voiceAttempt vw ?t ?n ?d (effects g)] =>
      destruct (voiceAttempt_effects vw t n d (effects g)) as (H1 & H2 & H3)
  end.
  split_and!; [done|done| |done]. rewrite H2, length_app. cbn. lia.
Qed.

Lemma voice_generation_lowers_flags_witness :
  isGeneratingQuizRef
    (gvoice (generateVoiceQuiz sampleVoiceWorld 5000
               (voiceGenStart afterConversation (settings webInputs)))) = false
  ∧ isGenerating
      (effects (generateVoiceQuiz sampleVoiceWorld 5000
                  (voiceGenStart afterConversation (settings webInputs)))) = false.
Proof.
  pose proof (voice_generation_lowers_flags sampleVoiceWorld 5000
                (voiceGenStart afterConversation (settings webInputs))
                eq_refl eq_refl) as (H1 & H2 & _).
  exact (conj H1 H2).
Defined.








End VoiceGenerationProperties.
